(** * Receipt line builder and money conversion (src/utils/receipt.ts)

    A shallow embedding of the receipt formatter and of the two
    conversions of utils/money it calls.

    - A JavaScript string is its sequence of UTF-16 code units.
    - A number is an exact rational, NaN or an infinity: the builder
      tests amounts with [Number.isFinite] and with truthiness, so the
      special values are part of its input. Finite arithmetic is exact.
    - Widths and indents are character counts, hence integers.
    - The [lines] array that the builder fills by [push] is threaded as
      explicit state.
    - [Number::toString] and [toUpperCase] are primitives of the host
      engine and are taken as given. *)

From Stdlib Require Import String Ascii.
From Stdlib Require Import List Bool Arith ZArith NArith Lia.
From Stdlib Require Import QArith Qcanon Qround.
From Stdlib Require Import Lqa DecimalN.
Import ListNotations.

(** ** JavaScript strings *)

Module JS.

(** A string is its sequence of UTF-16 code units; [.length] counts them. *)
Definition jsstring := list N.

Definition strlen (s : jsstring) : Z := Z.of_nat (Datatypes.length s).

(** Truthiness of a string: the empty string is falsy. *)
Definition nonEmpty (s : jsstring) : bool :=
  match s with [] => false | _ :: _ => true end.

(** Source literals are written in UTF-8; [utf8] decodes one, two and
    three byte sequences into code units (all labels of the receipt are
    in the basic multilingual plane). *)
Fixpoint utf8 (s : string) : jsstring :=
  match s with
  | EmptyString => []
  | String a rest =>
      let b := N_of_ascii a in
      if (b <? 128)%N then b :: utf8 rest
      else if (b <? 224)%N then
        match rest with
        | String a2 rest2 =>
            (N.land b 31 * 64 + N.land (N_of_ascii a2) 63)%N :: utf8 rest2
        | EmptyString => [b]
        end
      else
        match rest with
        | String a2 (String a3 rest3) =>
            (N.land b 15 * 4096 + N.land (N_of_ascii a2) 63 * 64
             + N.land (N_of_ascii a3) 63)%N :: utf8 rest3
        | _ => [b]
        end
  end.

Definition SP : N := 32%N.

(** The code units matched by [\s] and removed by [trim]: WhiteSpace
    and LineTerminator of ECMAScript. *)
Definition isWhiteSpace (c : N) : bool :=
  ((9 <=? c) && (c <=? 13) || (c =? 32) || (c =? 160) || (c =? 5760)
   || (8192 <=? c) && (c <=? 8202) || (c =? 8232) || (c =? 8233)
   || (c =? 8239) || (c =? 8287) || (c =? 12288) || (c =? 65279))%N.

Fixpoint trimStart (s : jsstring) : jsstring :=
  match s with
  | [] => []
  | c :: r => if isWhiteSpace c then trimStart r else s
  end.

Definition trimEnd (s : jsstring) : jsstring := rev (trimStart (rev s)).

Definition trim (s : jsstring) : jsstring := trimEnd (trimStart s).

(** [s.split(/\s+/)]: the pieces between maximal runs of white space.
    A leading or trailing run yields an empty first or last piece.
    [inSep] tells that the scan is inside a run, [cur] is the piece
    read so far. *)
Fixpoint splitWs (inSep : bool) (cur s : jsstring) : list jsstring :=
  match s with
  | [] => [cur]
  | c :: r =>
      if isWhiteSpace c
      then (if inSep then splitWs true cur r else cur :: splitWs true [] r)
      else splitWs false (cur ++ [c]) r
  end.

Definition split_ws (s : jsstring) : list jsstring := splitWs false [] s.

(** [xs.join(" ")]. *)
Fixpoint joinSp (xs : list jsstring) : jsstring :=
  match xs with
  | [] => []
  | [a] => a
  | a :: rest => a ++ SP :: joinSp rest
  end.

(** [s.slice(0, n)] and [" ".repeat(n)] for integers [n]. *)
Definition slice0 (s : jsstring) (n : Z) : jsstring := firstn (Z.to_nat n) s.

Definition spaces (n : Z) : jsstring := repeat SP (Z.to_nat n).

End JS.

Import JS.

(** ** wrapTextToWidth *)

(** One turn of the [words.forEach] loop on the pair [(result, current)]. *)
Definition wrapStep (width : Z) (st : list jsstring * jsstring)
    (word : jsstring) : list jsstring * jsstring :=
  let '(result, current) := st in
  if negb (nonEmpty word) then st
  else if negb (nonEmpty current) then (result, word)
  else if (strlen (current ++ SP :: word) <=? width)%Z
       then (result, current ++ SP :: word)
       else (result ++ [current], word).

(** The final [if (current) result.push(current)]. *)
Definition wrapFlush (st : list jsstring * jsstring) : list jsstring :=
  let '(result, current) := st in
  if nonEmpty current then result ++ [current] else result.

Definition wrapTextToWidth (value : jsstring) (width : Z) : list jsstring :=
  let safe := trim value in
  if negb (nonEmpty safe) then []
  else if (strlen safe <=? width)%Z then [safe]
  else wrapFlush (fold_left (wrapStep width) (split_ws safe) ([], [])).

(** The words of a text: its non-empty white-space delimited pieces. *)
Definition words (s : jsstring) : list jsstring :=
  filter nonEmpty (split_ws s).

(** The white-space normalised text, following the words of the
    specification: trimmed, and every internal run of white space
    replaced by one space. *)
Fixpoint collapseWs (inSep : bool) (s : jsstring) : jsstring :=
  match s with
  | [] => []
  | c :: r =>
      if isWhiteSpace c
      then (if inSep then collapseWs true r else SP :: collapseWs true r)
      else c :: collapseWs false r
  end.

Definition normalizeWs (s : jsstring) : jsstring := collapseWs false (trim s).

(** ** JavaScript numbers *)

(** A number is an exact rational, NaN or an infinity. Arithmetic on
    finite values is exact (no rounding to binary64) and there is one
    zero; the special values follow IEEE 754 as ECMAScript reads it. *)
Inductive num : Type :=
| Fin (q : Qc)
| PInf
| NInf
| NaN.

Definition Qcleb (a b : Qc) : bool := Qle_bool a b.
Definition Qcltb (a b : Qc) : bool := negb (Qle_bool b a).
Definition Qceqb (a b : Qc) : bool := Qeq_bool a b.

Definition zero : num := Fin (Q2Qc 0).
Definition ofZ (z : Z) : num := Fin (Q2Qc (inject_Z z)).

Inductive sign : Type := Neg | Zer | Pos.

Definition sgnQ (q : Qc) : sign :=
  if Qceqb q (Q2Qc 0) then Zer else if Qcltb q (Q2Qc 0) then Neg else Pos.

Definition sgn (x : num) : option sign :=
  match x with
  | Fin q => Some (sgnQ q)
  | PInf => Some Pos
  | NInf => Some Neg
  | NaN => None
  end.

Definition sign_mul (a b : sign) : sign :=
  match a, b with
  | Zer, _ | _, Zer => Zer
  | Pos, Pos | Neg, Neg => Pos
  | _, _ => Neg
  end.

(** The infinity of a sign; an undetermined sign gives NaN. *)
Definition infOf (s : sign) : num :=
  match s with Pos => PInf | Neg => NInf | Zer => NaN end.

(** [Number.isFinite]. *)
Definition isFinite (x : num) : bool :=
  match x with Fin _ => true | _ => false end.

(** Truthiness of a number: 0 and NaN are falsy. *)
Definition truthy (x : num) : bool :=
  match x with
  | Fin q => negb (Qceqb q (Q2Qc 0))
  | NaN => false
  | _ => true
  end.

(** [x === 0]. *)
Definition isZero (x : num) : bool :=
  match x with
  | Fin q => Qceqb q (Q2Qc 0)
  | _ => false
  end.

(** [Math.abs]. *)
Definition Math_abs (x : num) : num :=
  match x with
  | Fin q => Fin (if Qcltb q (Q2Qc 0) then Qcopp q else q)
  | PInf | NInf => PInf
  | NaN => NaN
  end.

(** [x < y] and [x <= y]; every comparison with NaN is false. *)
Definition nltb (x y : num) : bool :=
  match x, y with
  | NaN, _ | _, NaN => false
  | Fin a, Fin b => Qcltb a b
  | NInf, NInf | PInf, _ | _, NInf => false
  | _, _ => true
  end.

Definition nleb (x y : num) : bool :=
  match x, y with
  | NaN, _ | _, NaN => false
  | Fin a, Fin b => Qcleb a b
  | NInf, _ | _, PInf => true
  | _, _ => false
  end.

Definition ngtb (x y : num) : bool := nltb y x.
Definition ngeb (x y : num) : bool := nleb y x.

(** [Math.max] of two arguments. *)
Definition Math_max (x y : num) : num :=
  match x, y with
  | NaN, _ | _, NaN => NaN
  | PInf, _ | _, PInf => PInf
  | NInf, z | z, NInf => z
  | Fin a, Fin b => if Qcleb a b then y else x
  end.

Definition nsub (x y : num) : num :=
  match x, y with
  | NaN, _ | _, NaN => NaN
  | Fin a, Fin b => Fin (a - b)%Qc
  | PInf, PInf | NInf, NInf => NaN
  | PInf, _ | _, NInf => PInf
  | NInf, _ | _, PInf => NInf
  end.

(** Multiplication. A product of finite values is the exact rational:
    the rounding and the overflow of binary64 are not modelled. *)
Definition nmul (x y : num) : num :=
  match x, y with
  | Fin a, Fin b => Fin (a * b)%Qc
  | _, _ =>
      match sgn x, sgn y with
      | Some s, Some t => infOf (sign_mul s t)
      | _, _ => NaN
      end
  end.

(** Division. A quotient of finite values is the exact rational, as
    for the product. The sign of a zero divisor is not modelled: a
    non-zero value divided by zero is the infinity of the sign of the
    dividend. No caller in this file divides by zero. *)
Definition ndiv (x y : num) : num :=
  match x, y with
  | NaN, _ | _, NaN => NaN
  | Fin a, Fin b =>
      if Qceqb b (Q2Qc 0) then infOf (sgnQ a) else Fin (a / b)%Qc
  | Fin _, _ => zero
  | _, Fin b => infOf (sign_mul (match x with NInf => Neg | _ => Pos end)
                                (match sgnQ b with Neg => Neg | _ => Pos end))
  | _, _ => NaN
  end.

(** ** Host primitives *)

(** [Number::toString] and [String.prototype.toUpperCase] belong to the
    host engine. The first prints the shortest decimal that reads back
    as the same binary64 value, the second follows the Unicode case
    tables; both are taken as given. *)
Class Engine : Type := {
  numberToString : num -> jsstring;
  toUpperCase : jsstring -> jsstring
}.

Fixpoint digitsOfUint (d : Decimal.uint) : jsstring :=
  match d with
  | Decimal.Nil => []
  | Decimal.D0 r => 48%N :: digitsOfUint r
  | Decimal.D1 r => 49%N :: digitsOfUint r
  | Decimal.D2 r => 50%N :: digitsOfUint r
  | Decimal.D3 r => 51%N :: digitsOfUint r
  | Decimal.D4 r => 52%N :: digitsOfUint r
  | Decimal.D5 r => 53%N :: digitsOfUint r
  | Decimal.D6 r => 54%N :: digitsOfUint r
  | Decimal.D7 r => 55%N :: digitsOfUint r
  | Decimal.D8 r => 56%N :: digitsOfUint r
  | Decimal.D9 r => 57%N :: digitsOfUint r
  end.

(** The decimal digits of a natural number, ["0"] for zero. *)
Definition decimalDigits (n : Z) : jsstring :=
  match digitsOfUint (N.to_uint (Z.to_N n)) with
  | [] => [48%N]
  | ds => ds
  end.

(** The nearest integer to [q], the larger one on a tie, for [0 <= q]. *)
Definition roundHalfUp (q : Qc) : Z := Qfloor (q + (1 # 2))%Q.

Definition pow10 (f : nat) : Z := (10 ^ Z.of_nat f)%Z.

Definition tenTo21 : Qc := Q2Qc (inject_Z (pow10 21)).

Section WithEngine.

Context {E : Engine}.

(** The nearest multiple of [10^-f] to [q], for [0 <= q], printed with
    exactly [f] fractional digits: the digits of the rounded integer,
    padded with zeros on the left to [f + 1] digits, with the point
    before the last [f]. *)
Definition toFixedDigits (f : nat) (q : Qc) : jsstring :=
  let n := roundHalfUp (q * Q2Qc (inject_Z (pow10 f)))%Qc in
  let m := decimalDigits n in
  let k := Datatypes.length m in
  let m := if (k <=? f)%nat then repeat 48%N (f + 1 - k) ++ m else m in
  let k := Datatypes.length m in
  if (f =? 0)%nat then m
  else firstn (k - f) m ++ 46%N :: skipn (k - f) m.

(** [x.toFixed(f)] (Number.prototype.toFixed): a value that is not
    finite is printed by [Number::toString]; a finite one is printed as
    its sign and its magnitude, by [Number::toString] from 1e21 on and
    by [toFixedDigits] below. *)
Definition toFixed (f : nat) (x : num) : jsstring :=
  match x with
  | Fin q =>
      let neg := Qcltb q (Q2Qc 0) in
      let a := if neg then Qcopp q else q in
      (if neg then [45%N] else [])
      ++ (if Qcleb tenTo21 a then numberToString (Fin a)
          else toFixedDigits f a)
  | _ => numberToString x
  end.

(** [Number(x.toFixed(f))]: the value that the printed text reads back
    as. Below 1e21 it is the rounded multiple of [10^-f]; otherwise the
    text is [Number::toString] of [x], which reads back as [x]. *)
Definition toFixedValue (f : nat) (x : num) : num :=
  match x with
  | Fin q =>
      let neg := Qcltb q (Q2Qc 0) in
      let a := if neg then Qcopp q else q in
      if Qcleb tenTo21 a then x
      else
        let r := Q2Qc (inject_Z (roundHalfUp (a * Q2Qc (inject_Z (pow10 f)))%Qc)
                       / inject_Z (pow10 f)) in
        Fin (if neg then Qcopp r else r)
  | _ => x
  end.

(** ** formatReceiptMoney, hasMeaningfulAmount, formatPercentage *)

Definition streqb (a b : jsstring) : bool :=
  if list_eq_dec N.eq_dec a b then true else false.

(** The constant [formatted] of [formatReceiptMoney]: the magnitude with
    two decimals, followed by the currency. *)
Definition formattedAmount (value : num) (currency : jsstring) : jsstring :=
  let normalizedCurrency := toUpperCase currency in
  let displayCurrency :=
    if streqb normalizedCurrency (utf8 "TRY") then utf8 "TL"
    else normalizedCurrency in
  let amount := toFixed 2 (Math_abs value) in
  amount ++ (if nonEmpty displayCurrency then SP :: displayCurrency else []).

Definition formatReceiptMoney (value : num) (currency : jsstring) : jsstring :=
  let formatted := formattedAmount value currency in
  if nltb value zero then 45%N :: formatted else formatted.

Definition epsilon : num := Fin (Q2Qc (5 # 1000)).

Definition hasMeaningfulAmount (value : num) : bool :=
  ngeb (Math_abs value) epsilon.

(** [normalized % 1 === 0] on a finite value. *)
Definition isInteger (x : num) : bool :=
  match x with
  | Fin q => (Qden q =? 1)%positive
  | _ => false
  end.

Definition formatPercentage (value : num) : option jsstring :=
  if negb (isFinite value) then None
  else
    let normalized := toFixedValue 2 (Math_abs value) in
    if negb (isFinite normalized) then None
    else Some (if isInteger normalized
               then toFixed 0 normalized
               else numberToString normalized).

(** ** utils/money: toTRY and fromTRY *)

Inductive CurrencyCode : Type := TRY | USD | EUR | GBP.

Definition code_eqb (a b : CurrencyCode) : bool :=
  match a, b with
  | TRY, TRY | USD, USD | EUR, EUR | GBP, GBP => true
  | _, _ => false
  end.

Definition codeName (c : CurrencyCode) : jsstring :=
  match c with
  | TRY => utf8 "TRY"
  | USD => utf8 "USD"
  | EUR => utf8 "EUR"
  | GBP => utf8 "GBP"
  end.

(** A rate table holds, for some codes, the lira price of one unit. An
    entry may be absent at run time whatever the declared type says. *)
Definition Rates : Type := CurrencyCode -> option num.

(** [rates?.[code]]. *)
Definition lookupRate (rates : option Rates) (code : CurrencyCode)
  : option num :=
  match rates with
  | Some table => table code
  | None => None
  end.

(** [r && r > 0]. *)
Definition usableRate (r : option num) : option num :=
  match r with
  | Some v => if truthy v && ngtb v zero then Some v else None
  | None => None
  end.

Definition toTRY (amountFX : num) (code : CurrencyCode)
    (rates : option Rates) : num :=
  if negb (truthy amountFX) then zero
  else if code_eqb code TRY then amountFX
  else match usableRate (lookupRate rates code) with
       | Some r => nmul amountFX r
       | None => zero
       end.

Definition fromTRY (amountTRY : num) (code : CurrencyCode)
    (rates : option Rates) : num :=
  if negb (truthy amountTRY) then zero
  else if code_eqb code TRY then amountTRY
  else match usableRate (lookupRate rates code) with
       | Some r => ndiv amountTRY r
       | None => amountTRY
       end.

End WithEngine.

(** ** Receipt lines *)

Inductive Preset : Type := normal | medium | large.

Inductive Align : Type := alignLeft | alignCenter | alignRight.

(** Modelled from the spec: the type [ReceiptContentLine] is declared in
    hooks/useThermalPrinter, which is not part of the sources. The four
    variants are those of the data model: a text line (payload, optional
    preset, optional alignment), a two-column line (left, right, indent,
    total width, optional preset), a separator (optional fill character,
    total width) and a run of blank lines. [tagged] records whether the
    object literal of a text line carries [type: "text"]; three of the
    literals in the builder do not. *)
Inductive ReceiptContentLine : Type :=
| TextLine (tagged : bool) (text : jsstring)
           (preset : option Preset) (align : option Align)
| ColumnsLine (left right : jsstring) (indent width : Z)
              (preset : option Preset)
| SeparatorLine (char : option jsstring) (length : Z)
| EmptyLine (count : Z).

Record ReceiptItem : Type := {
  item_name : jsstring;
  item_quantity : option num;
  item_unitPrice : option num;
  item_currency : jsstring;
  item_subtotal : option num
}.

(** [string | number]: the value of a meta row. *)
Inductive MetaValue : Type :=
| MStr (s : jsstring)
| MNum (n : num).

Record ReceiptMetaRow : Type := {
  row_label : jsstring;
  row_value : option MetaValue
}.

(** A field that is read with a default distinguishes [undefined] (the
    default applies) from [null]. *)
Inductive Nullable (A : Type) : Type :=
| Undefined
| Null
| Value (a : A).

Arguments Undefined {A}.
Arguments Null {A}.
Arguments Value {A} a.

(** The options of the builder. A field is optional here when the
    builder reads it with a default, a nullish test or a truthiness test;
    [None] stands for both [undefined] and [null] where the builder does
    not tell them apart. Widths and indents are character counts. *)
Record BuildReceiptLinesOptions : Type := {
  tenantHeaderLines : option (list ReceiptContentLine);
  title : option jsstring;
  orderNumber : option jsstring;
  createdAtText : option jsstring;
  customerName : option jsstring;
  sellerName : option jsstring;
  extraMetaRows : option (list ReceiptMetaRow);
  items : option (list ReceiptItem);
  itemsEmptyMessage : option jsstring;
  subtotal : num;
  totalDiscount : num;
  totalTax : num;
  total : num;
  paid : option num;
  remaining : option num;
  paymentLabel : option jsstring;
  thankYouMessage : Nullable jsstring;
  receiptWidth : Z;
  receiptIndent : Z;
  currency : option jsstring;
  changeAmount : option num;
  targetCurrency : option jsstring;
  rates : option Rates;
  paidCurrency : option jsstring;
  summaryAlreadyTarget : option bool
}.

(** ** The [lines] array as state *)

(** A computation that reads and extends the array of lines built so far. *)
Definition M (A : Type) : Type :=
  list ReceiptContentLine -> A * list ReceiptContentLine.

Definition ret {A : Type} (a : A) : M A := fun lines => (a, lines).

Definition bind {A B : Type} (m : M A) (k : A -> M B) : M B :=
  fun lines => let (a, lines') := m lines in k a lines'.

Notation "m1 ;; m2" := (bind m1 (fun _ => m2))
  (at level 61, right associativity).

(** [lines.push(l)] and [lines.push(...ls)]. *)
Definition push (l : ReceiptContentLine) : M unit :=
  fun lines => (tt, lines ++ [l]).

Definition pushAll (ls : list ReceiptContentLine) : M unit :=
  fun lines => (tt, lines ++ ls).

Definition when (b : bool) (m : M unit) : M unit :=
  if b then m else ret tt.

(** [xs.forEach((x, index) => f index x)], counting from [i]. *)
Fixpoint forEachFrom {A : Type} (i : nat) (xs : list A)
    (f : nat -> A -> M unit) : M unit :=
  match xs with
  | [] => ret tt
  | x :: rest => f i x ;; forEachFrom (S i) rest f
  end.

Definition forEach {A : Type} (xs : list A) (f : A -> M unit) : M unit :=
  forEachFrom 0 xs (fun _ => f).

(** The lines a computation adds to an empty array. *)
Definition emitted (m : M unit) : list ReceiptContentLine := snd (m []).

Definition orDefault {A : Type} (d : A) (x : option A) : A :=
  match x with Some a => a | None => d end.

(** [xs.length] read as a condition. *)
Definition hasLength {A : Type} (xs : list A) : bool :=
  match xs with [] => false | _ :: _ => true end.

(** Truthiness of an optional string. *)
Definition truthyStr (s : option jsstring) : bool :=
  match s with Some v => nonEmpty v | None => false end.

(** ** buildStandardReceiptLines *)

Section Builder.

Context {E : Engine}.

(** The options captured by the closures of the builder. *)
Variable o : BuildReceiptLinesOptions.

Definition parseCode (s : jsstring) : option CurrencyCode :=
  if streqb s (utf8 "TRY") then Some TRY
  else if streqb s (utf8 "USD") then Some USD
  else if streqb s (utf8 "EUR") then Some EUR
  else if streqb s (utf8 "GBP") then Some GBP
  else None.

Definition normalizeCurrency (value : option jsstring) : CurrencyCode :=
  let normalized :=
    match value with
    | Some v => toUpperCase v
    | None => utf8 "TRY"
    end in
  orDefault TRY (parseCode normalized).

Definition resolvedTargetCurrency : CurrencyCode :=
  normalizeCurrency (Some (orDefault (utf8 "TRY") (targetCurrency o))).

Definition convertAmount (value : num) (from : option jsstring) : num :=
  let numeric := if isFinite value then value else zero in
  let sourceCurrency :=
    normalizeCurrency
      (Some (orDefault (orDefault (utf8 "TRY") (currency o)) from)) in
  if code_eqb sourceCurrency resolvedTargetCurrency
     || match rates o with None => true | Some _ => false end
     || isZero numeric
  then numeric
  else if code_eqb resolvedTargetCurrency TRY
  then toTRY numeric sourceCurrency (rates o)
  else if code_eqb sourceCurrency TRY
  then fromTRY numeric resolvedTargetCurrency (rates o)
  else
    let amountInTRY := toTRY numeric sourceCurrency (rates o) in
    fromTRY amountInTRY resolvedTargetCurrency (rates o).

Definition formatDisplayMoney (value : num) : jsstring :=
  formatReceiptMoney value (codeName resolvedTargetCurrency).

Definition convertSummaryAmount (value : num)
    (currencyOverride : option jsstring) : num :=
  if orDefault false (summaryAlreadyTarget o)
  then (if isFinite value then value else zero)
  else convertAmount value currencyOverride.

Definition toCenteredLine (value : jsstring) (preset : option Preset)
  : ReceiptContentLine :=
  let width := Z.max (receiptWidth o) 1 in
  let safeValue := trim value in
  let text := slice0 safeValue width in
  let padding := Z.max (width - strlen text) 0 in
  let left := (padding / 2)%Z in
  let right := (padding - left)%Z in
  TextLine true (spaces left ++ text ++ spaces right) preset None.

Definition availableWidth : Z :=
  Z.max (receiptWidth o - receiptIndent o) 8.

Definition pushResponsiveColumns (left right : jsstring)
    (preset : option Preset) : M unit :=
  let safeLeft := trim left in
  let safeRight := trim right in
  let estimatedLength := (strlen safeLeft + strlen safeRight + 2)%Z in
  if (availableWidth <? estimatedLength)%Z then
    when (nonEmpty safeLeft) (push (TextLine true safeLeft preset None)) ;;
    when (nonEmpty safeRight)
      (push (ColumnsLine [] safeRight (receiptIndent o) (receiptWidth o)
               preset))
  else
    push (ColumnsLine safeLeft safeRight (receiptIndent o) (receiptWidth o)
            preset).

(** [String(value)] for the value of a meta row. *)
Definition metaText (v : MetaValue) : jsstring :=
  match v with
  | MStr s => s
  | MNum n => numberToString n
  end.

Definition addMetaRow (label : jsstring) (value : option MetaValue)
    (preset : option Preset) : M unit :=
  match value with
  | None => ret tt
  | Some (MStr []) => ret tt
  | Some v =>
      match wrapTextToWidth (metaText v) availableWidth with
      | [] => ret tt
      | first :: wrapped =>
          pushResponsiveColumns label first preset ;;
          forEach wrapped (fun line => pushResponsiveColumns [] line preset)
      end
  end.

Definition separator : ReceiptContentLine :=
  SeparatorLine None (receiptWidth o).

Definition dottedSeparator : ReceiptContentLine :=
  SeparatorLine (Some (utf8 ".")) (receiptWidth o).

Definition headerStep : M unit :=
  let tenantHeaderLines := orDefault [] (tenantHeaderLines o) in
  when (hasLength tenantHeaderLines)
    (pushAll tenantHeaderLines ;; push separator).

Definition titleStep : M unit :=
  let title := orDefault (utf8 "Satış Fişi") (title o) in
  when (nonEmpty title)
    (push (toCenteredLine title (Some medium)) ;; push separator).

Definition metaRowOf (label : jsstring) (value : option jsstring)
  : list ReceiptMetaRow :=
  if truthyStr value
  then [{| row_label := label; row_value := option_map MStr value |}]
  else [].

Definition sellerRow : ReceiptMetaRow :=
  {| row_label := utf8 "Satıcı";
     row_value :=
       Some (MStr (if truthyStr (sellerName o)
                   then orDefault [] (sellerName o)
                   else utf8 "Satıcı")) |}.

Definition metaRows : list ReceiptMetaRow :=
  metaRowOf (utf8 "Sipariş No") (orderNumber o)
  ++ metaRowOf (utf8 "Tarih") (createdAtText o)
  ++ metaRowOf (utf8 "Müşteri") (customerName o)
  ++ [sellerRow]
  ++ orDefault [] (extraMetaRows o).

Definition orderInfoStep : M unit :=
  when (hasLength metaRows)
    (push (toCenteredLine (utf8 "Sipariş Bilgileri") (Some medium)) ;;
     push dottedSeparator ;;
     forEach metaRows
       (fun row => addMetaRow (row_label row) (row_value row) None) ;;
     push separator).

Definition itemStep (index : nat) (item : ReceiptItem) : M unit :=
  let qty := orDefault zero (item_quantity item) in
  let displayUnitPrice :=
    convertAmount (orDefault zero (item_unitPrice item))
      (Some (item_currency item)) in
  let lineSubtotal :=
    match item_subtotal item with
    | Some s => s
    | None => nmul (orDefault zero (item_unitPrice item))
                (orDefault zero (item_quantity item))
    end in
  let displaySubtotal := convertAmount lineSubtotal (Some (item_currency item)) in
  when (0 <? index)%nat (push (EmptyLine 1)) ;;
  push (TextLine false
          (if nonEmpty (item_name item) then item_name item else utf8 "Ürün")
          (Some medium) (Some alignLeft)) ;;
  pushResponsiveColumns
    (numberToString qty ++ utf8 " x " ++ formatDisplayMoney displayUnitPrice)
    (formatDisplayMoney displaySubtotal) None.

Definition itemsStep : M unit :=
  let safeItems := orDefault [] (items o) in
  if negb (hasLength safeItems)
  then push (TextLine false
               (orDefault (utf8 "Ürün bulunamadı.") (itemsEmptyMessage o))
               None (Some alignCenter))
  else forEachFrom 0 safeItems itemStep.

Definition summaryHeadStep : M unit :=
  push separator ;;
  push (toCenteredLine (utf8 "Ödeme Özeti") (Some medium)) ;;
  push separator.

Definition subtotalStep : M unit :=
  when (hasMeaningfulAmount (subtotal o))
    (pushResponsiveColumns (utf8 "Ara Toplam")
       (formatDisplayMoney (convertSummaryAmount (subtotal o) None))
       (Some medium)).

(** A label followed by its percentage, when there is one to show. *)
Definition percentLabel (base : jsstring) (percent : option jsstring)
  : jsstring :=
  if truthyStr percent
  then base ++ utf8 " (%" ++ orDefault [] percent ++ utf8 ")"
  else base.

Definition discountStep : M unit :=
  when (hasMeaningfulAmount (totalDiscount o))
    (let discountPercent :=
       if hasMeaningfulAmount (subtotal o)
       then formatPercentage
              (nmul (ndiv (totalDiscount o) (subtotal o)) (ofZ 100))
       else None in
     let discountLabel := percentLabel (utf8 "İndirim") discountPercent in
     pushResponsiveColumns discountLabel
       (45%N :: formatDisplayMoney
                  (convertSummaryAmount (totalDiscount o) None))
       None).

Definition taxStep : M unit :=
  when (hasMeaningfulAmount (totalTax o))
    (let taxBaseAmount :=
       Math_max (nsub (subtotal o) (totalDiscount o)) zero in
     let taxPercent :=
       if hasMeaningfulAmount taxBaseAmount
       then formatPercentage
              (nmul (ndiv (totalTax o) taxBaseAmount) (ofZ 100))
       else None in
     let taxLabel := percentLabel (utf8 "KDV") taxPercent in
     pushResponsiveColumns taxLabel
       (formatDisplayMoney (convertSummaryAmount (totalTax o) None))
       None).

Definition totalDisplay : num := convertSummaryAmount (total o) None.

Definition paidRaw : num := orDefault (total o) (paid o).

Definition resolvedPaid : num := convertSummaryAmount paidRaw (paidCurrency o).

Definition remainingRaw : num :=
  match remaining o with
  | Some r => Math_max r zero
  | None => Math_max (nsub (total o) paidRaw) zero
  end.

Definition resolvedRemaining : num := convertSummaryAmount remainingRaw None.

Definition hasOutstandingDebt : bool := hasMeaningfulAmount resolvedRemaining.

Definition displayPaidAmount : num :=
  if hasOutstandingDebt then totalDisplay else resolvedPaid.

Definition paidStep : M unit :=
  pushResponsiveColumns (utf8 "Ödenen") (formatDisplayMoney displayPaidAmount)
    None.

Definition resolvedChange : num :=
  match changeAmount o with
  | Some c => convertSummaryAmount c None
  | None => Math_max (nsub resolvedPaid totalDisplay) zero
  end.

Definition changeStep : M unit :=
  when (hasMeaningfulAmount resolvedChange)
    (pushResponsiveColumns (utf8 "Para Üstü")
       (formatDisplayMoney resolvedChange) None).

Definition grandTotalStep : M unit :=
  push dottedSeparator ;;
  push (toCenteredLine (utf8 "Genel Toplam") (Some medium)) ;;
  push (TextLine false (formatDisplayMoney totalDisplay) (Some large) None).

Definition debtStep : M unit :=
  when (negb hasOutstandingDebt && hasMeaningfulAmount resolvedRemaining)
    (pushResponsiveColumns (utf8 "Borç")
       (formatDisplayMoney resolvedRemaining) None).

Definition closingStep : M unit :=
  let thankYouMessage :=
    match thankYouMessage o with
    | Undefined => Some (utf8 "Teşekkür ederiz!")
    | Null => None
    | Value msg => Some msg
    end in
  push (EmptyLine 1) ;;
  when (truthyStr thankYouMessage)
    (push (toCenteredLine (orDefault [] thankYouMessage) None)) ;;
  push (EmptyLine 30).

Definition buildStandardReceiptLines : list ReceiptContentLine :=
  emitted
    (headerStep ;; titleStep ;; orderInfoStep ;; itemsStep ;;
     summaryHeadStep ;; subtotalStep ;; discountStep ;; taxStep ;;
     paidStep ;; changeStep ;; grandTotalStep ;; debtStep ;; closingStep).

End Builder.

(** ** buildSaleReceiptLines *)

Record BuildSaleReceiptOptions : Type := {
  sale_tenantHeaderLines : option (list ReceiptContentLine);
  sale_title : option jsstring;
  sale_orderNumber : option jsstring;
  sale_createdAtText : option jsstring;
  sale_customerName : option jsstring;
  sale_sellerName : option jsstring;
  sale_branchName : option jsstring;
  sale_extraMetaRows : option (list ReceiptMetaRow);
  sale_items : option (list ReceiptItem);
  sale_subtotal : option num;
  sale_totalDiscount : option num;
  sale_totalTax : option num;
  sale_total : num;
  sale_paid : option num;
  sale_remaining : option num;
  sale_paymentLabel : option jsstring;
  sale_thankYouMessage : Nullable jsstring;
  sale_receiptWidth : Z;
  sale_receiptIndent : Z;
  sale_currency : option jsstring;
  sale_targetCurrency : option jsstring;
  sale_rates : option Rates;
  sale_paidCurrency : option jsstring;
  sale_summaryAlreadyTarget : option bool
}.

(** The options that [buildSaleReceiptLines] hands to the builder. *)
Definition saleOptions (s : BuildSaleReceiptOptions)
  : BuildReceiptLinesOptions :=
  let paid := orDefault (sale_total s) (sale_paid s) in
  {| tenantHeaderLines := sale_tenantHeaderLines s;
     title := Some (orDefault (utf8 "Satış Fişi") (sale_title s));
     orderNumber := sale_orderNumber s;
     createdAtText := sale_createdAtText s;
     customerName := sale_customerName s;
     sellerName := sale_sellerName s;
     extraMetaRows := Some (orDefault [] (sale_extraMetaRows s));
     items := sale_items s;
     itemsEmptyMessage := None;
     subtotal := orDefault zero (sale_subtotal s);
     totalDiscount := orDefault zero (sale_totalDiscount s);
     totalTax := orDefault zero (sale_totalTax s);
     total := sale_total s;
     paid := Some paid;
     remaining :=
       Some (orDefault (Math_max (nsub (sale_total s) paid) zero)
               (sale_remaining s));
     paymentLabel := sale_paymentLabel s;
     thankYouMessage :=
       match sale_thankYouMessage s with
       | Undefined => Value (utf8 "Teşekkür ederiz!")
       | other => other
       end;
     receiptWidth := sale_receiptWidth s;
     receiptIndent := sale_receiptIndent s;
     currency := Some (orDefault (utf8 "TRY") (sale_currency s));
     changeAmount := None;
     targetCurrency := Some (orDefault (utf8 "TRY") (sale_targetCurrency s));
     rates := sale_rates s;
     paidCurrency := sale_paidCurrency s;
     summaryAlreadyTarget :=
       Some (orDefault false (sale_summaryAlreadyTarget s)) |}.

Definition buildSaleReceiptLines {E : Engine} (s : BuildSaleReceiptOptions)
  : list ReceiptContentLine :=
  buildStandardReceiptLines (saleOptions s).

(** ** A reference engine *)

(** An engine to run examples with. Its [toUpperCase] maps the letters
    a to z only; its [numberToString] prints the exact decimal expansion,
    cut after 17 fractional digits, which is what ECMAScript prints for
    integers below 1e21 and for the short decimals used below. *)
Definition asciiUpper (c : N) : N :=
  if ((97 <=? c) && (c <=? 122))%N then (c - 32)%N else c.

Fixpoint fracDigits (fuel : nat) (n d : Z) : jsstring :=
  match fuel with
  | O => []
  | S k =>
      if (n =? 0)%Z then []
      else Z.to_N (48 + (n * 10) / d) :: fracDigits k ((n * 10) mod d)%Z d
  end.

Definition exactToString (x : num) : jsstring :=
  match x with
  | NaN => utf8 "NaN"
  | PInf => utf8 "Infinity"
  | NInf => utf8 "-Infinity"
  | Fin q =>
      let n := Z.abs (Qnum q) in
      let d := Zpos (Qden q) in
      let f := fracDigits 17 (n mod d) d in
      (if (Qnum q <? 0)%Z then [45%N] else [])
      ++ decimalDigits (n / d)
      ++ (if nonEmpty f then 46%N :: f else [])
  end.

Definition referenceEngine : Engine :=
  {| numberToString := exactToString;
     toUpperCase := map asciiUpper |}.

(** ** Sample inputs *)

Definition dec (n : Z) (d : positive) : num := Fin (Q2Qc (n # d)).

Definition kahve : ReceiptItem :=
  {| item_name := utf8 "Kahve";
     item_quantity := Some (ofZ 2);
     item_unitPrice := Some (ofZ 25);
     item_currency := utf8 "TRY";
     item_subtotal := None |}.

(** A sale of width 32 and indent 1 with the given items and summary
    amounts, everything else left to its default. *)
Definition sampleOptions (its : list ReceiptItem)
    (sub disc tax tot : num) (pd rem chg : option num)
  : BuildReceiptLinesOptions :=
  {| tenantHeaderLines := None;
     title := None;
     orderNumber := None;
     createdAtText := None;
     customerName := None;
     sellerName := None;
     extraMetaRows := None;
     items := Some its;
     itemsEmptyMessage := None;
     subtotal := sub;
     totalDiscount := disc;
     totalTax := tax;
     total := tot;
     paid := pd;
     remaining := rem;
     paymentLabel := None;
     thankYouMessage := Undefined;
     receiptWidth := 32;
     receiptIndent := 1;
     currency := None;
     changeAmount := chg;
     targetCurrency := None;
     rates := None;
     paidCurrency := None;
     summaryAlreadyTarget := None |}.

(** ** Notions used by the statements *)

Definition startsNonSpace (s : jsstring) : bool :=
  match s with [] => false | c :: _ => negb (isWhiteSpace c) end.

Definition endsNonSpace (s : jsstring) : bool :=
  match s with [] => false | _ :: _ => negb (isWhiteSpace (last s SP)) end.

Definition allSpace (s : jsstring) : bool := forallb isWhiteSpace s.

Definition noSpace (s : jsstring) : bool :=
  forallb (fun c => negb (isWhiteSpace c)) s.

(** A computation only appends [out] to the array, whatever it holds. *)
Definition appends (m : M unit) (out : list ReceiptContentLine) : Prop :=
  forall lines, m lines = (tt, lines ++ out).

(** A computation is regular when it appends what it emits on the
    empty array. *)
Definition regular (m : M unit) : Prop := appends m (emitted m).

(** Stretches of the receipt: up to the tax row, through the grand
    total, from the change row on, and from the item list on. *)
Definition linesBeforePaid {E : Engine} (o : BuildReceiptLinesOptions)
  : list ReceiptContentLine :=
  emitted (headerStep o) ++ emitted (titleStep o)
  ++ emitted (orderInfoStep o) ++ emitted (itemsStep o)
  ++ emitted (summaryHeadStep o) ++ emitted (subtotalStep o)
  ++ emitted (discountStep o) ++ emitted (taxStep o).

Definition linesThroughGrandTotal {E : Engine} (o : BuildReceiptLinesOptions)
  : list ReceiptContentLine :=
  linesBeforePaid o ++ emitted (paidStep o) ++ emitted (changeStep o)
  ++ emitted (grandTotalStep o).

Definition linesAfterPaid {E : Engine} (o : BuildReceiptLinesOptions)
  : list ReceiptContentLine :=
  emitted (changeStep o) ++ emitted (grandTotalStep o)
  ++ emitted (debtStep o) ++ emitted (closingStep o).

Definition linesAfterOrderInfo {E : Engine} (o : BuildReceiptLinesOptions)
  : list ReceiptContentLine :=
  emitted (itemsStep o) ++ emitted (summaryHeadStep o)
  ++ emitted (subtotalStep o) ++ emitted (discountStep o)
  ++ emitted (taxStep o) ++ emitted (paidStep o) ++ emitted (changeStep o)
  ++ emitted (grandTotalStep o) ++ emitted (debtStep o)
  ++ emitted (closingStep o).

(** A row that carries [label]: a two-column line with it on the left,
    or the stacked text line that replaces it on a narrow receipt. *)
Definition labelled (label : jsstring) (line : ReceiptContentLine) : bool :=
  match line with
  | ColumnsLine l _ _ _ _ => streqb l label
  | TextLine _ t _ _ => streqb t label
  | _ => false
  end.

(** The output of the two-column emitter as the specification words
    it: one two-column line when both texts fit, otherwise the left text
    (if not empty) followed by a two-column line with an empty left. *)
Definition claimedResponsiveColumns (o : BuildReceiptLinesOptions)
    (left right : jsstring) (preset : option Preset)
  : list ReceiptContentLine :=
  let safeLeft := trim left in
  let safeRight := trim right in
  if (strlen safeLeft + strlen safeRight + 2
      <=? Z.max (receiptWidth o - receiptIndent o) 8)%Z
  then [ColumnsLine safeLeft safeRight (receiptIndent o) (receiptWidth o)
          preset]
  else (if nonEmpty safeLeft then [TextLine true safeLeft preset None] else [])
       ++ [ColumnsLine [] safeRight (receiptIndent o) (receiptWidth o) preset].

(** Two option records that agree on every field but [paymentLabel]. *)
Definition sameExceptPaymentLabel (a b : BuildReceiptLinesOptions) : Prop :=
  tenantHeaderLines a = tenantHeaderLines b
  /\ title a = title b
  /\ orderNumber a = orderNumber b
  /\ createdAtText a = createdAtText b
  /\ customerName a = customerName b
  /\ sellerName a = sellerName b
  /\ extraMetaRows a = extraMetaRows b
  /\ items a = items b
  /\ itemsEmptyMessage a = itemsEmptyMessage b
  /\ subtotal a = subtotal b
  /\ totalDiscount a = totalDiscount b
  /\ totalTax a = totalTax b
  /\ total a = total b
  /\ paid a = paid b
  /\ remaining a = remaining b
  /\ thankYouMessage a = thankYouMessage b
  /\ receiptWidth a = receiptWidth b
  /\ receiptIndent a = receiptIndent b
  /\ currency a = currency b
  /\ changeAmount a = changeAmount b
  /\ targetCurrency a = targetCurrency b
  /\ rates a = rates b
  /\ paidCurrency a = paidCurrency b
  /\ summaryAlreadyTarget a = summaryAlreadyTarget b.

Definition withPaymentLabel (label : option jsstring)
    (o : BuildReceiptLinesOptions) : BuildReceiptLinesOptions :=
  {| tenantHeaderLines := tenantHeaderLines o;
     title := title o;
     orderNumber := orderNumber o;
     createdAtText := createdAtText o;
     customerName := customerName o;
     sellerName := sellerName o;
     extraMetaRows := extraMetaRows o;
     items := items o;
     itemsEmptyMessage := itemsEmptyMessage o;
     subtotal := subtotal o;
     totalDiscount := totalDiscount o;
     totalTax := totalTax o;
     total := total o;
     paid := paid o;
     remaining := remaining o;
     paymentLabel := label;
     thankYouMessage := thankYouMessage o;
     receiptWidth := receiptWidth o;
     receiptIndent := receiptIndent o;
     currency := currency o;
     changeAmount := changeAmount o;
     targetCurrency := targetCurrency o;
     rates := rates o;
     paidCurrency := paidCurrency o;
     summaryAlreadyTarget := summaryAlreadyTarget o |}.

Definition withRates (table : option Rates)
    (o : BuildReceiptLinesOptions) : BuildReceiptLinesOptions :=
  {| tenantHeaderLines := tenantHeaderLines o;
     title := title o;
     orderNumber := orderNumber o;
     createdAtText := createdAtText o;
     customerName := customerName o;
     sellerName := sellerName o;
     extraMetaRows := extraMetaRows o;
     items := items o;
     itemsEmptyMessage := itemsEmptyMessage o;
     subtotal := subtotal o;
     totalDiscount := totalDiscount o;
     totalTax := totalTax o;
     total := total o;
     paid := paid o;
     remaining := remaining o;
     paymentLabel := paymentLabel o;
     thankYouMessage := thankYouMessage o;
     receiptWidth := receiptWidth o;
     receiptIndent := receiptIndent o;
     currency := currency o;
     changeAmount := changeAmount o;
     targetCurrency := targetCurrency o;
     rates := table;
     paidCurrency := paidCurrency o;
     summaryAlreadyTarget := summaryAlreadyTarget o |}.

(** A value that [formatReceiptMoney] prints without a minus sign. *)
Definition notNegative (x : num) : Prop := nltb x zero = false.

(** The sale of the debt scenario: total 100, paid 40, the remaining 60
    either left to the builder or supplied. *)
Definition debtScenario (rem : option num) : BuildReceiptLinesOptions :=
  sampleOptions [kahve; kahve] (ofZ 100) zero zero (ofZ 100)
    (Some (ofZ 40)) rem None.

(** A settled sale of 50 with an explicit change amount. *)
Definition changeScenario (chg : option num) : BuildReceiptLinesOptions :=
  sampleOptions [kahve] (ofZ 50) zero zero (ofZ 50) (Some (ofZ 50))
    (Some zero) chg.

(** A table with the single rate [r] for [code]. *)
Definition singleRate (code : CurrencyCode) (r : num) : Rates :=
  fun c => if code_eqb c code then Some r else None.

(** ** Notions used by further statements *)

(** A line that respects the width, or that is one unbreakable word. *)
Definition fitsOrOneWord (width : Z) (line : jsstring) : Prop :=
  (strlen line <= width)%Z \/ noSpace line = true.

(** Every line break was forced: the first word of a line would not
    have fitted at the end of the line before it. *)
Fixpoint greedyBreaks (width : Z) (lines : list jsstring) : Prop :=
  match lines with
  | a :: rest =>
      match rest with
      | b :: _ => (width < strlen a + 1 + strlen (hd [] (words b)))%Z
      | [] => True
      end
      /\ greedyBreaks width rest
  | [] => True
  end.

(** The right texts of the two-column lines, in order. *)
Definition columnRights (lines : list ReceiptContentLine) : list jsstring :=
  flat_map (fun l => match l with
                     | ColumnsLine _ r _ _ _ => [r]
                     | _ => []
                     end) lines.

(** The texts of the item name lines (untagged, medium, left aligned),
    in order, and the number of blank-line entries. *)
Definition itemNameLines (lines : list ReceiptContentLine) : list jsstring :=
  flat_map (fun l => match l with
                     | TextLine false t (Some medium) (Some alignLeft) => [t]
                     | _ => []
                     end) lines.

Definition blankCount (lines : list ReceiptContentLine) : nat :=
  Datatypes.length
    (filter (fun l => match l with EmptyLine _ => true | _ => false end) lines).

(** The name an item is printed under. *)
Definition displayName (item : ReceiptItem) : jsstring :=
  if nonEmpty (item_name item) then item_name item else utf8 "Ürün".

(** The title block and the thank-you line of a receipt, as lists. *)
Definition titleLines (o : BuildReceiptLinesOptions)
  : list ReceiptContentLine :=
  match title o with
  | None => [toCenteredLine o (utf8 "Satış Fişi") (Some medium); separator o]
  | Some [] => []
  | Some t => [toCenteredLine o t (Some medium); separator o]
  end.

Definition thanksLines (o : BuildReceiptLinesOptions)
  : list ReceiptContentLine :=
  match thankYouMessage o with
  | Undefined => [toCenteredLine o (utf8 "Teşekkür ederiz!") None]
  | Null => []
  | Value [] => []
  | Value msg => [toCenteredLine o msg None]
  end.

(** A table with rates for two codes. *)
Definition twoRates (c1 : CurrencyCode) (r1 : num) (c2 : CurrencyCode)
    (r2 : num) : Rates :=
  fun c => if code_eqb c c1 then Some r1
           else if code_eqb c c2 then Some r2 else None.

(** A receipt in euro with rates for the dollar and the euro. *)
Definition crossScenario : BuildReceiptLinesOptions :=
  {| tenantHeaderLines := None;
     title := None;
     orderNumber := None;
     createdAtText := None;
     customerName := None;
     sellerName := None;
     extraMetaRows := None;
     items := None;
     itemsEmptyMessage := None;
     subtotal := zero;
     totalDiscount := zero;
     totalTax := zero;
     total := zero;
     paid := None;
     remaining := None;
     paymentLabel := None;
     thankYouMessage := Undefined;
     receiptWidth := 32;
     receiptIndent := 1;
     currency := Some (utf8 "usd");
     changeAmount := None;
     targetCurrency := Some (utf8 "eur");
     rates := Some (twoRates USD (dec 40 1) EUR (dec 50 1));
     paidCurrency := None;
     summaryAlreadyTarget := None |}.

(** A sale of 120 given with its total only. *)
Definition sampleSale : BuildSaleReceiptOptions :=
  {| sale_tenantHeaderLines := None;
     sale_title := None;
     sale_orderNumber := None;
     sale_createdAtText := None;
     sale_customerName := None;
     sale_sellerName := None;
     sale_branchName := None;
     sale_extraMetaRows := None;
     sale_items := Some [kahve];
     sale_subtotal := None;
     sale_totalDiscount := None;
     sale_totalTax := None;
     sale_total := ofZ 120;
     sale_paid := None;
     sale_remaining := None;
     sale_paymentLabel := None;
     sale_thankYouMessage := Undefined;
     sale_receiptWidth := 32;
     sale_receiptIndent := 1;
     sale_currency := None;
     sale_targetCurrency := None;
     sale_rates := None;
     sale_paidCurrency := None;
     sale_summaryAlreadyTarget := None |}.

(** ** utils/money: applyGlobalDiscountTaxTRY *)

Definition nadd (x y : num) : num :=
  match x, y with
  | NaN, _ | _, NaN => NaN
  | Fin a, Fin b => Fin (a + b)%Qc
  | PInf, NInf | NInf, PInf => NaN
  | PInf, _ | _, PInf => PInf
  | NInf, _ | _, NInf => NInf
  end.

(** [x || 0] on a number. *)
Definition orZero (x : num) : num := if truthy x then x else zero.

Inductive AdjustmentType : Type := byPercentage | byAmount.

(** [{ type: "percentage" | "amount"; value: number }]. *)
Record Adjustment : Type := {
  adj_type : AdjustmentType;
  adj_value : num
}.

Record DiscountTaxResult : Type := {
  discountTRY : num;
  taxTRY : num;
  finalTRY : num
}.

Definition applyGlobalDiscountTaxTRY (subTotalTRY : num)
    (globalDiscount globalTax : option Adjustment) : DiscountTaxResult :=
  let discountTRY :=
    match globalDiscount with
    | Some g =>
        match adj_type g with
        | byPercentage =>
            ndiv (nmul subTotalTRY (orZero (adj_value g))) (ofZ 100)
        | byAmount => Math_max (orZero (adj_value g)) zero
        end
    | None => zero
    end in
  let baseForTax := Math_max (nsub subTotalTRY discountTRY) zero in
  let taxTRY :=
    match globalTax with
    | Some g =>
        match adj_type g with
        | byPercentage => ndiv (nmul baseForTax (orZero (adj_value g))) (ofZ 100)
        | byAmount => Math_max (orZero (adj_value g)) zero
        end
    | None => zero
    end in
  let finalTRY := Math_max (nadd baseForTax taxTRY) zero in
  {| discountTRY := discountTRY; taxTRY := taxTRY; finalTRY := finalTRY |}.


(** ** Notions used by the statements on the payment rows, the seller
    row and the item block *)


(** The text of the seller row: the seller name as given, or the
    fallback label when the name is absent or the empty string. *)
Definition sellerText (o : BuildReceiptLinesOptions) : jsstring :=
  match sellerName o with
  | Some (c :: s) => c :: s
  | _ => utf8 "Satıcı"
  end.

Definition withSellerName (name : option jsstring)
    (o : BuildReceiptLinesOptions) : BuildReceiptLinesOptions :=
  {| tenantHeaderLines := tenantHeaderLines o;
     title := title o;
     orderNumber := orderNumber o;
     createdAtText := createdAtText o;
     customerName := customerName o;
     sellerName := name;
     extraMetaRows := extraMetaRows o;
     items := items o;
     itemsEmptyMessage := itemsEmptyMessage o;
     subtotal := subtotal o;
     totalDiscount := totalDiscount o;
     totalTax := totalTax o;
     total := total o;
     paid := paid o;
     remaining := remaining o;
     paymentLabel := paymentLabel o;
     thankYouMessage := thankYouMessage o;
     receiptWidth := receiptWidth o;
     receiptIndent := receiptIndent o;
     currency := currency o;
     changeAmount := changeAmount o;
     targetCurrency := targetCurrency o;
     rates := rates o;
     paidCurrency := paidCurrency o;
     summaryAlreadyTarget := summaryAlreadyTarget o |}.

(** A settled sale of 50 whose seller name is three spaces. *)
Definition blankSellerScenario : BuildReceiptLinesOptions :=
  withSellerName (Some (utf8 "   ")) (changeScenario None).

(** Blocks of lines with one separating line between consecutive
    blocks, none before the first and none after the last. *)
Fixpoint joinBlocks (sep : ReceiptContentLine)
    (blocks : list (list ReceiptContentLine)) : list ReceiptContentLine :=
  match blocks with
  | [] => []
  | b :: rest =>
      match rest with
      | [] => b
      | _ :: _ => b ++ sep :: joinBlocks sep rest
      end
  end.

(** The lines of one item, without the blank line that separates it
    from the item before: its name, then quantity and unit price
    against the line subtotal. *)
Definition itemBlock {E : Engine} (o : BuildReceiptLinesOptions)
    (item : ReceiptItem) : list ReceiptContentLine :=
  let qty := orDefault zero (item_quantity item) in
  let displayUnitPrice :=
    convertAmount o (orDefault zero (item_unitPrice item))
      (Some (item_currency item)) in
  let lineSubtotal :=
    match item_subtotal item with
    | Some s => s
    | None => nmul (orDefault zero (item_unitPrice item))
                (orDefault zero (item_quantity item))
    end in
  let displaySubtotal :=
    convertAmount o lineSubtotal (Some (item_currency item)) in
  TextLine false (displayName item) (Some medium) (Some alignLeft)
  :: emitted
       (pushResponsiveColumns o
          (numberToString qty ++ utf8 " x "
           ++ formatDisplayMoney o displayUnitPrice)
          (formatDisplayMoney o displaySubtotal) None).

(** A receipt in euro whose rates for the dollar and the euro are both
    infinite. *)
Definition infiniteRatesScenario : BuildReceiptLinesOptions :=
  withRates (Some (twoRates USD PInf EUR PInf)) crossScenario.

(** * Properties *)

(** ** Facts about strings *)

Lemma strlen_app (a b : jsstring) : strlen (a ++ b) = (strlen a + strlen b)%Z.
Proof. unfold strlen. rewrite length_app. lia. Qed.

Lemma strlen_nonneg (a : jsstring) : (0 <= strlen a)%Z.
Proof. unfold strlen. lia. Qed.

Lemma nonEmpty_false (s : jsstring) : nonEmpty s = false -> s = [].
Proof. destruct s; [reflexivity | discriminate]. Qed.

Lemma nonEmpty_true (s : jsstring) : nonEmpty s = true -> s <> [].
Proof. destruct s; [discriminate | intros _ H; discriminate H]. Qed.

Lemma nonEmpty_iff (s : jsstring) : nonEmpty s = true <-> s <> [].
Proof.
  split; [apply nonEmpty_true |].
  destruct s; [intros H; now elim H | reflexivity].
Qed.

Lemma space_isWhiteSpace : isWhiteSpace SP = true.
Proof. reflexivity. Qed.

(** *** trim *)

Lemma trimStart_split (s : jsstring) :
  exists pre, s = pre ++ trimStart s /\ allSpace pre = true.
Proof.
  induction s as [|c r [pre [Hs Hp]]]; simpl.
  - exists []. split; reflexivity.
  - destruct (isWhiteSpace c) eqn:Hc.
    + exists (c :: pre). simpl. rewrite Hc, Hp. split; [now f_equal | reflexivity].
    + exists []. split; reflexivity.
Qed.

Lemma trimStart_head (s : jsstring) :
  trimStart s = [] \/ startsNonSpace (trimStart s) = true.
Proof.
  induction s as [|c r IH]; simpl; [now left |].
  destruct (isWhiteSpace c) eqn:Hc; [exact IH |].
  right. simpl. now rewrite Hc.
Qed.

Lemma allSpace_rev (s : jsstring) : allSpace (rev s) = allSpace s.
Proof.
  unfold allSpace. induction s as [|c r IH]; simpl; [reflexivity |].
  rewrite forallb_app, IH. simpl. rewrite andb_true_r. apply andb_comm.
Qed.

Lemma trimEnd_split (s : jsstring) :
  exists suf, s = trimEnd s ++ suf /\ allSpace suf = true.
Proof.
  unfold trimEnd. destruct (trimStart_split (rev s)) as [pre [Hs Hp]].
  exists (rev pre). split.
  - rewrite <- rev_app_distr, <- Hs. now rewrite rev_involutive.
  - now rewrite allSpace_rev.
Qed.

Lemma trimEnd_last (s : jsstring) :
  trimEnd s = [] \/ endsNonSpace (trimEnd s) = true.
Proof.
  unfold trimEnd. destruct (trimStart_head (rev s)) as [H | H].
  - left. now rewrite H.
  - right. destruct (trimStart (rev s)) as [|c r]; [discriminate |].
    simpl in H. simpl rev. unfold endsNonSpace.
    destruct (rev r ++ [c]) eqn:Hr.
    + now destruct (rev r).
    + rewrite <- Hr, last_last. exact H.
Qed.

Lemma trim_split (s : jsstring) :
  exists pre suf,
    s = pre ++ trim s ++ suf /\ allSpace pre = true /\ allSpace suf = true.
Proof.
  destruct (trimStart_split s) as [pre [Hs Hp]].
  destruct (trimEnd_split (trimStart s)) as [suf [Ht Hq]].
  exists pre, suf. unfold trim. now rewrite <- Ht.
Qed.

Lemma trim_shape (s : jsstring) :
  trim s = []
  \/ (startsNonSpace (trim s) = true /\ endsNonSpace (trim s) = true).
Proof.
  unfold trim.
  destruct (trimEnd_last (trimStart s)) as [H | H]; [now left |].
  right. split; [| exact H].
  destruct (trimEnd_split (trimStart s)) as [suf [Ht _]].
  destruct (trimStart_head s) as [H0 | H0].
  - rewrite H0 in H. discriminate H.
  - destruct (trimEnd (trimStart s)) as [|c r]; [discriminate H |].
    rewrite Ht in H0. exact H0.
Qed.

Lemma trimStart_fix (s : jsstring) : startsNonSpace s = true -> trimStart s = s.
Proof.
  destruct s as [|c r]; simpl; [reflexivity |].
  now destruct (isWhiteSpace c).
Qed.

Lemma trimEnd_fix (s : jsstring) : endsNonSpace s = true -> trimEnd s = s.
Proof.
  intros H. unfold trimEnd.
  destruct s as [|c r]; [reflexivity |].
  unfold endsNonSpace in H.
  assert (Hl : exists t x, c :: r = t ++ [x]).
  { destruct (exists_last (l := c :: r)) as [t [x Hx]]; [discriminate | now exists t, x]. }
  destruct Hl as [t [x Hx]]. rewrite Hx in *. rewrite last_last in H.
  rewrite rev_app_distr. simpl.
  apply negb_true_iff in H. rewrite H. simpl.
  now rewrite rev_involutive.
Qed.

Lemma trim_fix (s : jsstring) :
  startsNonSpace s = true -> endsNonSpace s = true -> trim s = s.
Proof.
  intros H1 H2. unfold trim. rewrite (trimStart_fix s H1). now apply trimEnd_fix.
Qed.

Lemma trim_idempotent (s : jsstring) : trim (trim s) = trim s.
Proof.
  destruct (trim_shape s) as [H | [H1 H2]].
  - rewrite H. reflexivity.
  - now apply trim_fix.
Qed.

(** *** split and join *)

Lemma splitWs_nonnil (b : bool) (cur s : jsstring) : splitWs b cur s <> [].
Proof.
  revert b cur. induction s as [|c r IH]; intros b cur; simpl; [discriminate |].
  destruct (isWhiteSpace c), b; try apply IH; discriminate.
Qed.

Lemma joinSp_cons (a : jsstring) (l : list jsstring) :
  l <> [] -> joinSp (a :: l) = a ++ SP :: joinSp l.
Proof. destruct l; [intros H; now elim H | reflexivity]. Qed.

(** Joining the pieces of a split with one space collapses every run. *)
Lemma joinSp_splitWs (s : jsstring) :
  forall b cur, joinSp (splitWs b cur s) = cur ++ collapseWs b s.
Proof.
  induction s as [|c r IH]; intros b cur; simpl.
  - now rewrite app_nil_r.
  - destruct (isWhiteSpace c).
    + destruct b; [apply IH |].
      rewrite joinSp_cons by apply splitWs_nonnil. now rewrite IH.
    + rewrite IH, <- app_assoc. reflexivity.
Qed.

Lemma endsNonSpace_tail (c : N) (r : jsstring) :
  endsNonSpace (c :: r) = true ->
  (r = [] /\ isWhiteSpace c = false) \/ (r <> [] /\ endsNonSpace r = true).
Proof.
  unfold endsNonSpace. destruct r as [|d r'].
  - simpl. intros H. left. split; [reflexivity | now apply negb_true_iff].
  - intros H. right. split; [discriminate | exact H].
Qed.

(** A text that neither starts nor ends with white space splits into
    non-empty pieces only. *)
Lemma splitWs_no_empty (s : jsstring) :
  forall b cur,
    (s = [] -> cur <> []) ->
    (s <> [] -> endsNonSpace s = true
                /\ (b = true \/ cur <> [] \/ startsNonSpace s = true)) ->
    forallb nonEmpty (splitWs b cur s) = true.
Proof.
  induction s as [|c r IH]; intros b cur H0 H1; simpl.
  - rewrite andb_true_r. apply nonEmpty_iff. now apply H0.
  - destruct H1 as [He Hs]; [discriminate |].
    destruct (endsNonSpace_tail _ _ He) as [[Hr Hc] | [Hr Hl]].
    + subst r. rewrite Hc. simpl. rewrite andb_true_r.
      apply nonEmpty_iff. now destruct cur.
    + destruct (isWhiteSpace c) eqn:Hc.
      * assert (Hcur : b = true \/ cur <> []).
        { destruct Hs as [Hs | [Hs | Hs]]; auto. simpl in Hs.
          rewrite Hc in Hs. discriminate Hs. }
        destruct b.
        -- apply IH; [intros Hn; now elim Hr | intros _; split; auto].
        -- destruct Hcur as [Hcur | Hcur]; [discriminate |].
           simpl. apply andb_true_iff. split; [now apply nonEmpty_iff |].
           apply IH; [intros Hn; now elim Hr | intros _; split; auto].
      * apply IH; [intros _; now destruct cur |].
        intros _. split; [exact Hl |]. right. left. now destruct cur.
Qed.

Lemma split_ws_trimmed (s : jsstring) :
  startsNonSpace s = true -> endsNonSpace s = true ->
  forallb nonEmpty (split_ws s) = true.
Proof.
  intros H1 H2. apply splitWs_no_empty.
  - intros ->. discriminate H1.
  - intros _. auto.
Qed.

Lemma filter_all {A : Type} (f : A -> bool) (l : list A) :
  forallb f l = true -> filter f l = l.
Proof.
  induction l as [|a l IH]; simpl; [reflexivity |].
  intros H. apply andb_true_iff in H. destruct H as [Ha Hl].
  rewrite Ha. f_equal. now apply IH.
Qed.

(** *** words *)

Lemma filter_splitWs_flag (s : jsstring) :
  filter nonEmpty (splitWs true [] s) = filter nonEmpty (splitWs false [] s).
Proof.
  destruct s as [|c r]; simpl; [reflexivity |].
  now destruct (isWhiteSpace c).
Qed.

Lemma filter_splitWs_sep (a : jsstring) :
  forall b cur c rest,
    isWhiteSpace c = true -> (b = true -> cur = []) ->
    filter nonEmpty (splitWs b cur (a ++ c :: rest))
    = filter nonEmpty (splitWs b cur a) ++ words rest.
Proof.
  induction a as [|x a IH]; intros b cur c rest Hc Hb; simpl.
  - rewrite Hc. unfold words, split_ws. destruct b.
    + rewrite (Hb eq_refl). simpl. apply filter_splitWs_flag.
    + simpl. rewrite filter_splitWs_flag. now destruct (nonEmpty cur).
  - destruct (isWhiteSpace x).
    + destruct b.
      * now apply IH.
      * simpl. rewrite (IH true [] c rest Hc (fun _ => eq_refl)).
        now destruct (nonEmpty cur).
    + apply IH; [exact Hc | discriminate].
Qed.

Lemma words_sep (a : jsstring) (c : N) (rest : jsstring) :
  isWhiteSpace c = true -> words (a ++ c :: rest) = words a ++ words rest.
Proof.
  intros Hc. unfold words at 1 2, split_ws.
  apply filter_splitWs_sep; [exact Hc | discriminate].
Qed.

Lemma words_allSpace (p : jsstring) : allSpace p = true -> words p = [].
Proof.
  induction p as [|c p IH]; [reflexivity |].
  simpl. intros H. apply andb_true_iff in H. destruct H as [Hc Hp].
  change (c :: p) with ([] ++ c :: p). rewrite words_sep by exact Hc.
  now apply IH.
Qed.

Lemma words_strip_left (pre s : jsstring) :
  allSpace pre = true -> words (pre ++ s) = words s.
Proof.
  induction pre as [|c p IH]; [reflexivity |].
  simpl. intros H. apply andb_true_iff in H. destruct H as [Hc Hp].
  change (c :: p ++ s) with ([] ++ c :: (p ++ s)).
  rewrite words_sep by exact Hc. now apply IH.
Qed.

Lemma words_strip_right (s suf : jsstring) :
  allSpace suf = true -> words (s ++ suf) = words s.
Proof.
  destruct suf as [|c p]; [now rewrite app_nil_r |].
  simpl. intros H. apply andb_true_iff in H. destruct H as [Hc Hp].
  rewrite words_sep by exact Hc. rewrite (words_allSpace p Hp). apply app_nil_r.
Qed.

Lemma words_trim (s : jsstring) : words (trim s) = words s.
Proof.
  destruct (trim_split s) as [pre [suf [Hs [Hp Hq]]]].
  rewrite Hs at 2. rewrite words_strip_left by exact Hp.
  now rewrite words_strip_right.
Qed.

Lemma splitWs_noSpace (w : jsstring) :
  forall cur, noSpace w = true -> splitWs false cur w = [cur ++ w].
Proof.
  induction w as [|c w IH]; intros cur H; simpl.
  - now rewrite app_nil_r.
  - simpl in H. apply andb_true_iff in H. destruct H as [Hc Hw].
    apply negb_true_iff in Hc. rewrite Hc, IH by exact Hw.
    now rewrite <- app_assoc.
Qed.

Lemma words_word (w : jsstring) :
  noSpace w = true -> w <> [] -> words w = [w].
Proof.
  intros H Hn. unfold words, split_ws. rewrite splitWs_noSpace by exact H.
  simpl. apply nonEmpty_iff in Hn. now rewrite Hn.
Qed.

Lemma noSpace_app (a b : jsstring) :
  noSpace (a ++ b) = noSpace a && noSpace b.
Proof. apply forallb_app. Qed.

(** No piece of a split holds white space. *)
Lemma splitWs_pieces_noSpace (s : jsstring) :
  forall b cur,
    noSpace cur = true ->
    Forall (fun w => noSpace w = true) (splitWs b cur s).
Proof.
  induction s as [|c r IH]; intros b cur Hcur; simpl.
  - now constructor.
  - destruct (isWhiteSpace c) eqn:Hc.
    + destruct b; [now apply IH |].
      constructor; [exact Hcur | now apply IH].
    + apply IH. rewrite noSpace_app, Hcur. simpl. now rewrite Hc.
Qed.

(** The length of a piece is bounded by the text it comes from. *)
Lemma splitWs_piece_length (s : jsstring) :
  forall b cur w,
    In w (splitWs b cur s) -> (strlen w <= strlen cur + strlen s)%Z.
Proof.
  induction s as [|c r IH]; intros b cur w H; simpl in H.
  - destruct H as [<- | []]. unfold strlen. simpl. lia.
  - assert (Hc : strlen (c :: r) = (1 + strlen r)%Z).
    { unfold strlen. simpl Datatypes.length. lia. }
    destruct (isWhiteSpace c).
    + destruct b.
      * apply IH in H. lia.
      * destruct H as [<- | H]; [pose proof (strlen_nonneg r); lia |].
        apply IH in H. unfold strlen at 2 in H. simpl in H.
        pose proof (strlen_nonneg cur). lia.
    + apply IH in H. rewrite strlen_app in H.
      unfold strlen at 3 in H. simpl in H. lia.
Qed.

Lemma words_proper (s : jsstring) :
  Forall (fun w => noSpace w = true /\ w <> []) (words s).
Proof.
  unfold words. apply Forall_forall. intros w Hw.
  apply filter_In in Hw. destruct Hw as [Hin Hne]. split.
  - pose proof (splitWs_pieces_noSpace s false [] eq_refl) as HF.
    rewrite Forall_forall in HF. now apply HF.
  - now apply nonEmpty_iff.
Qed.

Lemma words_length (s w : jsstring) :
  In w (words s) -> (strlen w <= strlen s)%Z.
Proof.
  unfold words. intros H. apply filter_In in H. destruct H as [H _].
  apply splitWs_piece_length in H. unfold strlen at 2 in H. simpl in H. lia.
Qed.

(** ** wrapTextToWidth *)

Section Wrap.

Variable width : Z.

Lemma wrapStep_empty (st : list jsstring * jsstring) : wrapStep width st [] = st.
Proof. now destruct st. Qed.

(** The loop skips empty pieces, so it runs on the words. *)
Lemma wrap_fold_filter (l : list jsstring) :
  forall st,
    fold_left (wrapStep width) l st
    = fold_left (wrapStep width) (filter nonEmpty l) st.
Proof.
  induction l as [|w l IH]; intros st; simpl; [reflexivity |].
  destruct w as [|c w]; simpl.
  - rewrite wrapStep_empty. apply IH.
  - apply IH.
Qed.

Lemma joinSp_merge (l : list jsstring) (a b : jsstring) (r : list jsstring) :
  joinSp (l ++ (a ++ SP :: b) :: r) = joinSp (l ++ a :: b :: r).
Proof.
  induction l as [|x l IH].
  - simpl. destruct r; [reflexivity |]. now rewrite <- app_assoc.
  - rewrite <- !app_comm_cons.
    rewrite !joinSp_cons by (now destruct l). now rewrite IH.
Qed.

Lemma words_merge (l : list jsstring) (a b : jsstring) (r : list jsstring) :
  concat (map words (l ++ (a ++ SP :: b) :: r))
  = concat (map words (l ++ a :: b :: r)).
Proof.
  rewrite !map_app, !concat_app. simpl.
  rewrite words_sep by reflexivity. now rewrite <- app_assoc.
Qed.

(** One turn of the loop moves a word from the input to the lines
    without changing what they read as. *)
Lemma wrapStep_lines (X : Type) (F : list jsstring -> X)
    (HF : forall l a b r, F (l ++ (a ++ SP :: b) :: r) = F (l ++ a :: b :: r))
    (st : list jsstring * jsstring) (w : jsstring) (ws : list jsstring) :
  w <> [] ->
  F (wrapFlush (wrapStep width st w) ++ ws) = F (wrapFlush st ++ w :: ws).
Proof.
  intros Hw. destruct st as [result current].
  destruct w as [|c w]; [now elim Hw |].
  unfold wrapStep. cbn [nonEmpty negb].
  destruct current as [|d current]; cbn [nonEmpty negb].
  - cbn [wrapFlush nonEmpty]. now rewrite <- app_assoc.
  - destruct (strlen ((d :: current) ++ SP :: c :: w) <=? width)%Z.
    + cbn [wrapFlush nonEmpty app]. rewrite <- !app_assoc. simpl.
      apply (HF result (d :: current) (c :: w) ws).
    + cbn [wrapFlush nonEmpty]. now rewrite <- !app_assoc.
Qed.

Lemma wrap_fold_lines (X : Type) (F : list jsstring -> X)
    (HF : forall l a b r, F (l ++ (a ++ SP :: b) :: r) = F (l ++ a :: b :: r))
    (ws : list jsstring) :
  forall st,
    Forall (fun w => w <> []) ws ->
    F (wrapFlush (fold_left (wrapStep width) ws st)) = F (wrapFlush st ++ ws).
Proof.
  induction ws as [|w ws IH]; intros st H; simpl.
  - now rewrite app_nil_r.
  - inversion H as [|? ? Hw Hws]; subst.
    rewrite IH by exact Hws. now apply wrapStep_lines.
Qed.

Lemma wrap_fold_result (ws : list jsstring) :
  forall result current x,
    In x result ->
    In x (wrapFlush (fold_left (wrapStep width) ws (result, current))).
Proof.
  induction ws as [|w ws IH]; intros result current x Hx; simpl.
  - destruct (nonEmpty current); [apply in_or_app; now left | exact Hx].
  -     destruct (negb (nonEmpty w)); [now apply IH |].
    destruct (negb (nonEmpty current)); [now apply IH |].
    destruct (strlen (current ++ SP :: w) <=? width)%Z; [now apply IH |].
    apply IH. apply in_or_app. now left.
Qed.

(** A word longer than the width, once current, is flushed alone. *)
Lemma wrap_fold_long_current (ws : list jsstring) :
  forall result current,
    current <> [] -> (width < strlen current)%Z ->
    In current (wrapFlush (fold_left (wrapStep width) ws (result, current))).
Proof.
  induction ws as [|w ws IH]; intros result current Hne Hlong; simpl.
  - apply nonEmpty_iff in Hne. rewrite Hne. apply in_or_app. right. now left.
  - destruct (nonEmpty w) eqn:Hw; cbn [negb]; [| now apply IH].
    pose proof Hne as Hne'. apply nonEmpty_iff in Hne'. rewrite Hne'. cbn [negb].
    assert (Hfit : (strlen (current ++ SP :: w) <=? width)%Z = false).
    { apply Z.leb_gt. rewrite strlen_app. pose proof (strlen_nonneg (SP :: w)). lia. }
    rewrite Hfit. apply wrap_fold_result. apply in_or_app. right. now left.
Qed.

Lemma wrap_fold_long_word (ws : list jsstring) :
  forall st w,
    In w ws -> w <> [] -> (width < strlen w)%Z ->
    In w (wrapFlush (fold_left (wrapStep width) ws st)).
Proof.
  induction ws as [|v ws IH]; intros st w Hin Hne Hlong; [now elim Hin |].
  simpl. destruct Hin as [-> | Hin]; [| now apply IH].
  destruct st as [result current]. unfold wrapStep at 2.
  pose proof Hne as Hne'. apply nonEmpty_iff in Hne'. rewrite Hne'. cbn [negb].
  destruct (negb (nonEmpty current)); [now apply wrap_fold_long_current |].
  assert (Hfit : (strlen (current ++ SP :: w) <=? width)%Z = false).
  { apply Z.leb_gt. rewrite strlen_app. unfold strlen at 2. simpl Datatypes.length.
    pose proof (strlen_nonneg current). unfold strlen in Hlong. lia. }
  rewrite Hfit. now apply wrap_fold_long_current.
Qed.

End Wrap.

Lemma concat_words_proper (ws : list jsstring) :
  Forall (fun w => noSpace w = true /\ w <> []) ws ->
  concat (map words ws) = ws.
Proof.
  induction 1 as [|w ws [Hw Hn] _ IH]; simpl; [reflexivity |].
  rewrite words_word by assumption. simpl. now rewrite IH.
Qed.

(** The long path of [wrapTextToWidth]: greedy packing of the words. *)
Lemma wrap_long_path (value : jsstring) (width : Z) :
  nonEmpty (trim value) = true ->
  (strlen (trim value) <=? width)%Z = false ->
  wrapTextToWidth value width
  = wrapFlush (fold_left (wrapStep width) (words value) ([], [])).
Proof.
  intros Hne Hlen. unfold wrapTextToWidth. rewrite Hne, Hlen. cbn [negb].
  rewrite wrap_fold_filter. fold (words (trim value)). now rewrite words_trim.
Qed.

Lemma words_nonempty (s : jsstring) : Forall (fun w => w <> []) (words s).
Proof.
  eapply Forall_impl; [| apply words_proper]. now intros w [_ H].
Qed.

Lemma normalizeWs_words (value : jsstring) :
  normalizeWs value = joinSp (words value).
Proof.
  unfold normalizeWs. rewrite <- (words_trim value).
  destruct (trim_shape value) as [H | [H1 H2]].
  - rewrite H. reflexivity.
  - unfold words. rewrite filter_all by now apply split_ws_trimmed.
    unfold split_ws. now rewrite joinSp_splitWs.
Qed.

(** C7, as the code has it: the lines returned by [wrapTextToWidth] hold
    the words of the input, whole and in order; a word longer than the
    width is a line by itself; joining the lines with single spaces gives
    the white-space normalised input when the trimmed input is longer
    than the width, and the trimmed input itself, internal white space
    untouched, when it fits. This holds for every width. *)
Theorem wrapTextToWidth_words (value : jsstring) (width : Z) :
  concat (map words (wrapTextToWidth value width)) = words value
  /\ joinSp (wrapTextToWidth value width)
     = (if (width <? strlen (trim value))%Z
        then normalizeWs value else trim value)
  /\ (forall w, In w (words value) -> (width < strlen w)%Z ->
                In w (wrapTextToWidth value width)).
Proof.
  destruct (nonEmpty (trim value)) eqn:Hne.
  - destruct (strlen (trim value) <=? width)%Z eqn:Hlen.
    + (* the text fits: one line, the trimmed text *)
      assert (Hw : wrapTextToWidth value width = [trim value]).
      { unfold wrapTextToWidth. now rewrite Hne, Hlen. }
      rewrite Hw. apply Z.leb_le in Hlen.
      repeat split.
      * simpl. rewrite app_nil_r. apply words_trim.
      * simpl. destruct (Z.ltb_spec width (strlen (trim value))); [lia | reflexivity].
      * intros w Hin Hlong. rewrite <- words_trim in Hin.
        apply words_length in Hin. lia.
    + rewrite (wrap_long_path value width Hne Hlen).
      apply Z.leb_gt in Hlen. apply Z.ltb_lt in Hlen. rewrite Hlen.
      repeat split.
      * rewrite (wrap_fold_lines width _ (fun l => concat (map words l))
                   words_merge _ _ (words_nonempty value)).
        simpl. apply concat_words_proper, words_proper.
      * rewrite (wrap_fold_lines width _ joinSp joinSp_merge _ _
                   (words_nonempty value)).
        simpl. symmetry. apply normalizeWs_words.
      * intros w Hin Hlong. apply wrap_fold_long_word; try assumption.
        pose proof (words_nonempty value) as HF. rewrite Forall_forall in HF.
        now apply HF.
  - (* nothing but white space: no line, no word *)
    assert (Hw : wrapTextToWidth value width = []).
    { unfold wrapTextToWidth. now rewrite Hne. }
    apply nonEmpty_false in Hne.
    assert (Hwords : words value = []).
    { rewrite <- words_trim, Hne. reflexivity. }
    rewrite Hw, Hwords. repeat split.
    + simpl. rewrite normalizeWs_words, Hwords, Hne. simpl.
      now destruct (width <? strlen [])%Z.
    + intros w [].
Qed.

(** ** The array of lines is only appended to *)

Lemma appends_emitted (m : M unit) (out : list ReceiptContentLine) :
  appends m out -> emitted m = out.
Proof. intros H. unfold emitted. now rewrite H. Qed.

Lemma appends_ret : appends (ret tt) [].
Proof. intros lines. unfold ret. now rewrite app_nil_r. Qed.

Lemma appends_push (l : ReceiptContentLine) : appends (push l) [l].
Proof. now intros lines. Qed.

Lemma appends_pushAll (ls : list ReceiptContentLine) : appends (pushAll ls) ls.
Proof. now intros lines. Qed.

Lemma appends_bind (m1 m2 : M unit) (o1 o2 : list ReceiptContentLine) :
  appends m1 o1 -> appends m2 o2 -> appends (m1 ;; m2) (o1 ++ o2).
Proof.
  intros H1 H2 lines. unfold bind. rewrite H1, H2. now rewrite app_assoc.
Qed.

Lemma appends_when (b : bool) (m : M unit) (out : list ReceiptContentLine) :
  appends m out -> appends (when b m) (if b then out else []).
Proof. destruct b; [trivial | intros _; apply appends_ret]. Qed.

Lemma regular_of_appends (m : M unit) (out : list ReceiptContentLine) :
  appends m out -> regular m.
Proof. intros H. unfold regular. now rewrite (appends_emitted m out H). Qed.

Lemma regular_bind (m1 m2 : M unit) :
  regular m1 -> regular m2 -> regular (m1 ;; m2).
Proof.
  intros H1 H2. eapply regular_of_appends, appends_bind; eassumption.
Qed.

Lemma emitted_bind (m1 m2 : M unit) :
  regular m1 -> regular m2 -> emitted (m1 ;; m2) = emitted m1 ++ emitted m2.
Proof. intros H1 H2. now apply appends_emitted, appends_bind. Qed.

Lemma regular_ret : regular (ret tt).
Proof. exact (regular_of_appends _ _ appends_ret). Qed.

Lemma regular_push (l : ReceiptContentLine) : regular (push l).
Proof. exact (regular_of_appends _ _ (appends_push l)). Qed.

Lemma regular_pushAll (ls : list ReceiptContentLine) : regular (pushAll ls).
Proof. exact (regular_of_appends _ _ (appends_pushAll ls)). Qed.

Lemma regular_when (b : bool) (m : M unit) : regular m -> regular (when b m).
Proof. destruct b; [trivial | intros _; apply regular_ret]. Qed.

Lemma regular_forEachFrom (A : Type) (xs : list A) (f : nat -> A -> M unit) :
  (forall i x, regular (f i x)) -> forall i, regular (forEachFrom i xs f).
Proof.
  intros Hf. induction xs as [|x xs IH]; intros i; simpl.
  - apply regular_ret.
  - apply regular_bind; [apply Hf | apply IH].
Qed.

Lemma regular_forEach (A : Type) (xs : list A) (f : A -> M unit) :
  (forall x, regular (f x)) -> regular (forEach xs f).
Proof. intros Hf. apply regular_forEachFrom. intros _. apply Hf. Qed.

Create HintDb lines.
#[export] Hint Resolve regular_ret regular_push regular_pushAll regular_when
  regular_bind regular_forEach regular_forEachFrom : lines.

(** *** The two-column emitter *)

Lemma pushResponsiveColumns_appends (o : BuildReceiptLinesOptions)
    (left right : jsstring) (preset : option Preset) :
  appends (pushResponsiveColumns o left right preset)
    (if (strlen (trim left) + strlen (trim right) + 2
         <=? Z.max (receiptWidth o - receiptIndent o) 8)%Z
     then [ColumnsLine (trim left) (trim right) (receiptIndent o)
             (receiptWidth o) preset]
     else (if nonEmpty (trim left)
           then [TextLine true (trim left) preset None] else [])
          ++ (if nonEmpty (trim right)
              then [ColumnsLine [] (trim right) (receiptIndent o)
                      (receiptWidth o) preset]
              else [])).
Proof.
  unfold pushResponsiveColumns, availableWidth.
  rewrite Z.leb_antisym.
  destruct (Z.max (receiptWidth o - receiptIndent o) 8
            <? strlen (trim left) + strlen (trim right) + 2)%Z; cbn [negb].
  - apply appends_bind; apply appends_when, appends_push.
  - apply appends_push.
Qed.

Lemma regular_pushResponsiveColumns (o : BuildReceiptLinesOptions)
    (left right : jsstring) (preset : option Preset) :
  regular (pushResponsiveColumns o left right preset).
Proof.
  eapply regular_of_appends, pushResponsiveColumns_appends.
Qed.

#[export] Hint Resolve regular_pushResponsiveColumns : lines.

Section Steps.

Context {E : Engine}.
Variable o : BuildReceiptLinesOptions.

Lemma regular_addMetaRow (label : jsstring) (value : option MetaValue)
    (preset : option Preset) :
  regular (addMetaRow o label value preset).
Proof.
  unfold addMetaRow.
  destruct value as [[[|c s] | n] |]; auto with lines;
    destruct (wrapTextToWidth _ _); auto with lines.
Qed.

#[local] Hint Resolve regular_addMetaRow : lines.

Lemma regular_headerStep : regular (headerStep o).
Proof. unfold headerStep. auto with lines. Qed.

Lemma regular_titleStep : regular (titleStep o).
Proof. unfold titleStep. auto with lines. Qed.

Lemma regular_orderInfoStep : regular (orderInfoStep o).
Proof. unfold orderInfoStep. auto 8 with lines. Qed.

Lemma regular_itemStep (i : nat) (item : ReceiptItem) :
  regular (itemStep o i item).
Proof. unfold itemStep. auto with lines. Qed.

#[local] Hint Resolve regular_itemStep : lines.

Lemma regular_itemsStep : regular (itemsStep o).
Proof.
  unfold itemsStep. destruct (negb (hasLength _)); auto with lines.
Qed.

Lemma regular_summaryHeadStep : regular (summaryHeadStep o).
Proof. unfold summaryHeadStep. auto with lines. Qed.

Lemma regular_subtotalStep : regular (subtotalStep o).
Proof. unfold subtotalStep. auto with lines. Qed.

Lemma regular_discountStep : regular (discountStep o).
Proof. unfold discountStep. auto with lines. Qed.

Lemma regular_taxStep : regular (taxStep o).
Proof. unfold taxStep. auto with lines. Qed.

Lemma regular_paidStep : regular (paidStep o).
Proof. unfold paidStep. auto with lines. Qed.

Lemma regular_changeStep : regular (changeStep o).
Proof. unfold changeStep. auto with lines. Qed.

Lemma regular_grandTotalStep : regular (grandTotalStep o).
Proof. unfold grandTotalStep. auto with lines. Qed.

Lemma regular_debtStep : regular (debtStep o).
Proof. unfold debtStep. auto with lines. Qed.

Lemma regular_closingStep : regular (closingStep o).
Proof. unfold closingStep. auto 6 with lines. Qed.

#[local] Hint Resolve regular_headerStep regular_titleStep regular_orderInfoStep
  regular_itemsStep regular_summaryHeadStep regular_subtotalStep
  regular_discountStep regular_taxStep regular_paidStep regular_changeStep
  regular_grandTotalStep regular_debtStep regular_closingStep : lines.

(** The receipt is the concatenation of what its thirteen steps emit. *)
Lemma build_sections :
  buildStandardReceiptLines o
  = emitted (headerStep o) ++ emitted (titleStep o)
    ++ emitted (orderInfoStep o) ++ emitted (itemsStep o)
    ++ emitted (summaryHeadStep o) ++ emitted (subtotalStep o)
    ++ emitted (discountStep o) ++ emitted (taxStep o)
    ++ emitted (paidStep o) ++ emitted (changeStep o)
    ++ emitted (grandTotalStep o) ++ emitted (debtStep o)
    ++ emitted (closingStep o).
Proof.
  unfold buildStandardReceiptLines.
  repeat (rewrite emitted_bind; [f_equal | auto with lines | auto 20 with lines]).
Qed.

End Steps.

(** ** Layout primitives *)

(** C5, as the code has it: the two-column emitter appends one
    two-column line holding both trimmed texts when their lengths plus 2
    fit the available width [max(receiptWidth - receiptIndent, 8)];
    otherwise it appends the left text as a text line if it is not empty,
    and then the right text in a two-column line with an empty left
    field if the right text is not empty. *)
Theorem pushResponsiveColumns_lines (o : BuildReceiptLinesOptions)
    (left right : jsstring) (preset : option Preset)
    (lines : list ReceiptContentLine) :
  pushResponsiveColumns o left right preset lines
  = (tt,
     lines
     ++ (if (strlen (trim left) + strlen (trim right) + 2
             <=? Z.max (receiptWidth o - receiptIndent o) 8)%Z
         then [ColumnsLine (trim left) (trim right) (receiptIndent o)
                 (receiptWidth o) preset]
         else (if nonEmpty (trim left)
               then [TextLine true (trim left) preset None] else [])
              ++ (if nonEmpty (trim right)
                  then [ColumnsLine [] (trim right) (receiptIndent o)
                          (receiptWidth o) preset]
                  else []))).
Proof.
  unfold pushResponsiveColumns, availableWidth, bind, when, push, ret.
  rewrite Z.leb_antisym.
  destruct (Z.max (receiptWidth o - receiptIndent o) 8
            <? strlen (trim left) + strlen (trim right) + 2)%Z; cbn [negb].
  - destruct (nonEmpty (trim left)), (nonEmpty (trim right));
      rewrite <- ?app_assoc, ?app_nil_r; reflexivity.
  - reflexivity.
Qed.

(** C5 as stated fails: on an overflow with an empty right text only the
    text line is appended, not the two-column line the claim promises. *)
Lemma pushResponsiveColumns_empty_right :
  emitted (pushResponsiveColumns (changeScenario None)
             (utf8 "abcdefghijklmnopqrstuvwxyz0123456789") [] None)
  = [TextLine true (utf8 "abcdefghijklmnopqrstuvwxyz0123456789") None None]
  /\ emitted (pushResponsiveColumns (changeScenario None)
                (utf8 "abcdefghijklmnopqrstuvwxyz0123456789") [] None)
     <> claimedResponsiveColumns (changeScenario None)
          (utf8 "abcdefghijklmnopqrstuvwxyz0123456789") [] None.
Proof. split; [reflexivity | vm_compute; discriminate]. Qed.

Lemma spaces_length (n : Z) : (0 <= n)%Z -> strlen (spaces n) = n.
Proof.
  intros H. unfold strlen, spaces. rewrite repeat_length. lia.
Qed.

Lemma slice0_all (s : jsstring) (n : Z) :
  (strlen s <= n)%Z -> slice0 s n = s.
Proof.
  intros H. unfold slice0. apply firstn_all2. unfold strlen in H. lia.
Qed.

(** C8: a trimmed text shorter than the width [max(receiptWidth, 1)] is
    centred between [left] and [right] spaces with
    [left + right = width - length] and [right - left] equal to 0 or 1,
    so the odd space goes to the right and the line is [width] long. *)
Theorem toCenteredLine_padding (o : BuildReceiptLinesOptions)
    (value : jsstring) (preset : option Preset) :
  (strlen (trim value) < Z.max (receiptWidth o) 1)%Z ->
  exists left right : Z,
    toCenteredLine o value preset
    = TextLine true (spaces left ++ trim value ++ spaces right) preset None
    /\ strlen (spaces left) = left
    /\ strlen (spaces right) = right
    /\ (left + right = Z.max (receiptWidth o) 1 - strlen (trim value))%Z
    /\ (right - left = 0 \/ right - left = 1)%Z
    /\ strlen (spaces left ++ trim value ++ spaces right)
       = Z.max (receiptWidth o) 1.
Proof.
  intros H.
  set (width := Z.max (receiptWidth o) 1) in *.
  set (padding := (width - strlen (trim value))%Z).
  exists (padding / 2)%Z, (padding - padding / 2)%Z.
  assert (Hp : (0 < padding)%Z) by (unfold padding; lia).
  assert (Hd : (0 <= padding / 2)%Z) by (apply Z.div_pos; lia).
  assert (Hm : (padding = 2 * (padding / 2) + padding mod 2)%Z)
    by (apply Z.div_mod; lia).
  pose proof (Z.mod_pos_bound padding 2 ltac:(lia)) as Hb.
  repeat split.
  - unfold toCenteredLine. fold width.
    rewrite slice0_all by lia.
    fold padding. rewrite Z.max_l by lia. reflexivity.
  - now apply spaces_length.
  - apply spaces_length. lia.
  - fold padding. lia.
  - lia.
  - rewrite !strlen_app, !spaces_length by lia. fold width. unfold padding. lia.
Qed.

Lemma toCenteredLine_padding_witness :
  (strlen (trim (utf8 "  Genel Toplam "))
   < Z.max (receiptWidth (changeScenario None)) 1)%Z
  /\ exists left right : Z,
       toCenteredLine (changeScenario None) (utf8 "  Genel Toplam ") None
       = TextLine true
           (spaces left ++ trim (utf8 "  Genel Toplam ") ++ spaces right)
           None None
       /\ strlen (spaces left) = left
       /\ strlen (spaces right) = right
       /\ (left + right
           = Z.max (receiptWidth (changeScenario None)) 1
             - strlen (trim (utf8 "  Genel Toplam ")))%Z
       /\ (right - left = 0 \/ right - left = 1)%Z
       /\ strlen (spaces left ++ trim (utf8 "  Genel Toplam ")
                   ++ spaces right)
          = Z.max (receiptWidth (changeScenario None)) 1.
Proof.
  split.
  - reflexivity.
  - apply (toCenteredLine_padding (changeScenario None)
             (utf8 "  Genel Toplam ") None).
    reflexivity.
Defined.

Example toCenteredLine_odd :
  toCenteredLine (changeScenario None) (utf8 "abc") None
  = TextLine true (spaces 14 ++ utf8 "abc" ++ spaces 15) None None.
Proof. reflexivity. Qed.

(** C7 as stated fails: a text that fits the width is returned as it is
    after trimming, so an internal run of white space survives. *)
Lemma wrapTextToWidth_keeps_inner_runs :
  wrapTextToWidth (utf8 "a  b") 10 = [utf8 "a  b"]
  /\ normalizeWs (utf8 "a  b") = utf8 "a b"
  /\ joinSp (wrapTextToWidth (utf8 "a  b") 10) <> normalizeWs (utf8 "a  b").
Proof. repeat split. vm_compute. discriminate. Qed.

(** ** Numbers *)

Lemma Qceqb_eq (a b : Qc) : Qceqb a b = true <-> a = b.
Proof.
  unfold Qceqb. rewrite Qeq_bool_iff.
  split; [apply Qc_is_canon | intros ->; reflexivity].
Qed.

Lemma Qceqb_neq (a b : Qc) : a <> b -> Qceqb a b = false.
Proof.
  intros H. destruct (Qceqb a b) eqn:He; [| reflexivity].
  apply Qceqb_eq in He. contradiction.
Qed.

Lemma Qcleb_le (a b : Qc) : Qcleb a b = true <-> (a <= b)%Qc.
Proof. apply Qle_bool_iff. Qed.

Lemma Qcltb_lt (a b : Qc) : Qcltb a b = true <-> (a < b)%Qc.
Proof.
  unfold Qcltb. rewrite negb_true_iff. split.
  - intros H. apply Qcnot_le_lt. intros Hle.
    apply Qcleb_le in Hle. unfold Qcleb in Hle. congruence.
  - intros H. destruct (Qle_bool b a) eqn:Hb; [| reflexivity].
    apply Qle_bool_iff in Hb. now apply Qclt_not_le in H.
Qed.

Lemma Qcltb_ge (a b : Qc) : Qcltb a b = false <-> (b <= a)%Qc.
Proof.
  unfold Qcltb. rewrite negb_false_iff. apply Qle_bool_iff.
Qed.

Lemma fin_nonzero (q : Qc) : Fin q <> zero -> Qceqb q (Q2Qc 0) = false.
Proof.
  intros H. apply Qceqb_neq. intros ->. now apply H.
Qed.

Lemma code_eqb_neq (c d : CurrencyCode) : c <> d -> code_eqb c d = false.
Proof. destruct c, d; simpl; intros H; try reflexivity; now elim H. Qed.

Lemma code_eqb_refl (c : CurrencyCode) : code_eqb c c = true.
Proof. now destruct c. Qed.

Lemma usableRate_positive (r : option num) (v : num) :
  usableRate r = Some v -> ngtb v zero = true.
Proof.
  destruct r as [x|]; unfold usableRate; [| discriminate].
  destruct (truthy x && ngtb x zero) eqn:H; [| discriminate].
  intros [= <-]. apply andb_true_iff in H. tauto.
Qed.

(** ** utils/money *)

(** C3, as the code has it: for an amount that is a number (not NaN)
    other than zero and a code other than TRY whose rate is missing or
    not positive, [toTRY] returns 0 and [fromTRY] returns the amount
    unchanged. *)
Theorem missing_rate_asymmetry (amount : num) (code : CurrencyCode)
    (rates : option Rates) :
  amount <> NaN -> amount <> zero -> code <> TRY ->
  (lookupRate rates code = None
   \/ exists r, lookupRate rates code = Some r /\ ngtb r zero = false) ->
  toTRY amount code rates = zero /\ fromTRY amount code rates = amount.
Proof.
  intros Hnan Hz Hc Hr.
  assert (Ht : truthy amount = true).
  { destruct amount as [q| | |]; simpl; try reflexivity.
    - now rewrite fin_nonzero.
    - now elim Hnan. }
  assert (Hu : usableRate (lookupRate rates code) = None).
  { destruct Hr as [-> | [r [-> Hr]]]; unfold usableRate; [reflexivity |].
    rewrite Hr. now rewrite andb_false_r. }
  unfold toTRY, fromTRY.
  rewrite Ht, (code_eqb_neq _ _ Hc), Hu. split; reflexivity.
Qed.

Lemma ofZ_nonzero (z : Z) : z <> 0%Z -> ofZ z <> zero.
Proof.
  intros Hz H. apply Hz. unfold ofZ, zero in H.
  assert (Hq : Q2Qc (inject_Z z) = Q2Qc 0) by congruence.
  apply Q2Qc_eq_iff in Hq. unfold Qeq in Hq. simpl in Hq. lia.
Qed.

Lemma missing_rate_asymmetry_witness :
  ofZ 10 <> NaN
  /\ ofZ 10 <> zero
  /\ lookupRate (Some (singleRate EUR (ofZ 40))) USD = None
  /\ toTRY (ofZ 10) USD (Some (singleRate EUR (ofZ 40))) = zero
  /\ fromTRY (ofZ 10) USD (Some (singleRate EUR (ofZ 40))) = ofZ 10.
Proof.
  assert (H1 : ofZ 10 <> NaN) by discriminate.
  assert (H2 : ofZ 10 <> zero) by (apply ofZ_nonzero; lia).
  repeat (split; [assumption || reflexivity |]).
  apply (missing_rate_asymmetry (ofZ 10) USD (Some (singleRate EUR (ofZ 40)))
           H1 H2).
  - discriminate.
  - left. reflexivity.
Defined.

(** C3 as stated fails at NaN, which is not zero and which [fromTRY]
    turns into 0 like [toTRY] does, rate or no rate. *)
Lemma fromTRY_NaN_not_unchanged :
  NaN <> zero
  /\ USD <> TRY
  /\ lookupRate None USD = None
  /\ toTRY NaN USD None = zero
  /\ fromTRY NaN USD None = zero
  /\ fromTRY NaN USD None <> NaN.
Proof. repeat split; discriminate. Qed.

(** C4: with exact arithmetic, converting a non-zero amount to lira and
    back with the same positive rate returns the amount. *)
Theorem conversion_round_trip (code : CurrencyCode) (r a : Qc)
    (rates : option Rates) :
  code <> TRY -> (Q2Qc 0 < r)%Qc -> a <> Q2Qc 0 ->
  lookupRate rates code = Some (Fin r) ->
  fromTRY (toTRY (Fin a) code rates) code rates = Fin a.
Proof.
  intros Hc Hr Ha Hl.
  assert (Hr0 : r <> Q2Qc 0).
  { intros ->. now apply Qclt_not_eq in Hr. }
  assert (Hu : usableRate (lookupRate rates code) = Some (Fin r)).
  { rewrite Hl. unfold usableRate, truthy, ngtb, nltb, zero.
    rewrite (Qceqb_neq _ _ Hr0). apply Qcltb_lt in Hr. now rewrite Hr. }
  unfold toTRY, fromTRY.
  assert (Hm : (a * r)%Qc <> Q2Qc 0).
  { intros H. apply Qcmult_integral in H. tauto. }
  rewrite (code_eqb_neq _ _ Hc), Hu. cbn [truthy negb nmul].
  rewrite (Qceqb_neq _ _ Ha). cbn [truthy negb].
  rewrite (Qceqb_neq _ _ Hm). cbn [negb ndiv].
  rewrite (Qceqb_neq _ _ Hr0).
  now rewrite Qcdiv_mult_l.
Qed.

Lemma conversion_round_trip_witness :
  fromTRY (toTRY (Fin (Q2Qc (7 # 2))) USD
             (Some (singleRate USD (Fin (Q2Qc (413 # 10))))))
    USD (Some (singleRate USD (Fin (Q2Qc (413 # 10)))))
  = Fin (Q2Qc (7 # 2)).
Proof.
  apply (conversion_round_trip USD (Q2Qc (413 # 10)) (Q2Qc (7 # 2))
           (Some (singleRate USD (Fin (Q2Qc (413 # 10)))))).
  - discriminate.
  - reflexivity.
  - intros H. apply (f_equal (fun q : Qc => Qnum q)) in H.
    vm_compute in H. discriminate H.
  - reflexivity.
Defined.

(** *** Values that are not negative *)

Lemma notNegative_zero : notNegative zero.
Proof. reflexivity. Qed.

Lemma notNegative_Fin (a : Qc) : notNegative (Fin a) <-> (Q2Qc 0 <= a)%Qc.
Proof. unfold notNegative, nltb, zero. apply Qcltb_ge. Qed.

Lemma notNegative_cases (x : num) :
  notNegative x ->
  (exists a, x = Fin a /\ (Q2Qc 0 <= a)%Qc) \/ x = PInf \/ x = NaN.
Proof.
  destruct x as [a| | |]; intros H; auto.
  - left. exists a. split; [reflexivity | now apply notNegative_Fin].
  - discriminate H.
Qed.

Lemma positive_cases (r : num) :
  ngtb r zero = true ->
  (exists b, r = Fin b /\ (Q2Qc 0 < b)%Qc) \/ r = PInf.
Proof.
  destruct r as [b| | |]; intros H; try discriminate H; auto.
  left. exists b. split; [reflexivity |]. now apply Qcltb_lt.
Qed.

Lemma sgnQ_nonneg (a : Qc) :
  (Q2Qc 0 <= a)%Qc -> sgnQ a = Zer \/ sgnQ a = Pos.
Proof.
  intros H. unfold sgnQ. destruct (Qceqb a (Q2Qc 0)); [now left |].
  apply Qcltb_ge in H. rewrite H. now right.
Qed.

Lemma sgnQ_pos (b : Qc) : (Q2Qc 0 < b)%Qc -> sgnQ b = Pos.
Proof.
  intros H. unfold sgnQ.
  rewrite Qceqb_neq by (intros ->; now apply Qclt_not_eq in H).
  apply Qclt_le_weak, Qcltb_ge in H. now rewrite H.
Qed.

(** [Math.max(x, 0)] is never negative. *)
Lemma notNegative_max (x : num) : notNegative (Math_max x zero).
Proof.
  destruct x as [a| | |]; try reflexivity.
  unfold Math_max, zero. destruct (Qcleb a (Q2Qc 0)) eqn:H.
  - reflexivity.
  - apply notNegative_Fin. apply Qclt_le_weak, Qcnot_le_lt.
    intros Hle. apply Qcleb_le in Hle. congruence.
Qed.

Lemma notNegative_mul (x r : num) :
  notNegative x -> ngtb r zero = true -> notNegative (nmul x r).
Proof.
  intros Hx Hr.
  destruct (notNegative_cases x Hx) as [[a [-> Ha]] | [-> | ->]];
    destruct (positive_cases r Hr) as [[b [-> Hb]] | ->]; try reflexivity.
  - apply notNegative_Fin.
    rewrite <- (Qcmult_0_l b). apply Qcmult_le_compat_r; [exact Ha |].
    now apply Qclt_le_weak.
  - unfold nmul, sgn.
    destruct (sgnQ_nonneg a Ha) as [-> | ->]; reflexivity.
  - unfold nmul, sgn. now rewrite (sgnQ_pos b Hb).
Qed.

Lemma notNegative_div (x r : num) :
  notNegative x -> ngtb r zero = true -> notNegative (ndiv x r).
Proof.
  intros Hx Hr.
  destruct (notNegative_cases x Hx) as [[a [-> Ha]] | [-> | ->]];
    destruct (positive_cases r Hr) as [[b [-> Hb]] | ->]; try reflexivity.
  - assert (Hb0 : b <> Q2Qc 0) by (intros ->; now apply Qclt_not_eq in Hb).
    unfold ndiv. rewrite (Qceqb_neq _ _ Hb0).
    apply notNegative_Fin.
    apply (Qcmult_lt_0_le_reg_r _ _ b Hb).
    rewrite Qcmult_0_l, Qcmult_comm, Qcmult_div_r by exact Hb0. exact Ha.
  - unfold ndiv. now rewrite (sgnQ_pos b Hb).
Qed.

Lemma toTRY_notNegative (x : num) (code : CurrencyCode) (rates : option Rates) :
  notNegative x -> notNegative (toTRY x code rates).
Proof.
  intros Hx. unfold toTRY.
  destruct (negb (truthy x)); [reflexivity |].
  destruct (code_eqb code TRY); [exact Hx |].
  destruct (usableRate (lookupRate rates code)) as [r|] eqn:Hr; [| reflexivity].
  apply notNegative_mul; [exact Hx |]. eapply usableRate_positive; eassumption.
Qed.

Lemma fromTRY_notNegative (x : num) (code : CurrencyCode)
    (rates : option Rates) :
  notNegative x -> notNegative (fromTRY x code rates).
Proof.
  intros Hx. unfold fromTRY.
  destruct (negb (truthy x)); [reflexivity |].
  destruct (code_eqb code TRY); [exact Hx |].
  destruct (usableRate (lookupRate rates code)) as [r|] eqn:Hr; [| exact Hx].
  apply notNegative_div; [exact Hx |]. eapply usableRate_positive; eassumption.
Qed.

Lemma notNegative_finite_or_zero (x : num) :
  notNegative x -> notNegative (if isFinite x then x else zero).
Proof. destruct x; simpl; trivial; intros _; apply notNegative_zero. Qed.

Section Summary.

Context {E : Engine}.
Variable o : BuildReceiptLinesOptions.

Lemma convertAmount_notNegative (x : num) (from : option jsstring) :
  notNegative x -> notNegative (convertAmount o x from).
Proof.
  intros Hx. apply notNegative_finite_or_zero in Hx. unfold convertAmount.
  repeat match goal with
         | |- notNegative (if ?c then _ else _) => destruct c
         end;
    auto using toTRY_notNegative, fromTRY_notNegative.
Qed.

Lemma convertSummaryAmount_notNegative (x : num) (cur : option jsstring) :
  notNegative x -> notNegative (convertSummaryAmount o x cur).
Proof.
  intros Hx. unfold convertSummaryAmount.
  destruct (orDefault false (summaryAlreadyTarget o)).
  - now apply notNegative_finite_or_zero.
  - now apply convertAmount_notNegative.
Qed.




Lemma emitted_when (b : bool) (m : M unit) :
  emitted (when b m) = if b then emitted m else [].
Proof. now destruct b. Qed.

Lemma emitted_pushResponsiveColumns_labelled (left right : jsstring)
    (preset : option Preset) :
  trim left <> [] ->
  emitted (pushResponsiveColumns o left right preset) <> [].
Proof.
  intros Hl.
  rewrite (appends_emitted _ _ (pushResponsiveColumns_appends o left right preset)).
  destruct (_ <=? _)%Z; [discriminate |].
  apply nonEmpty_iff in Hl. rewrite Hl. discriminate.
Qed.

End Summary.

(** ** The receipt *)

Section Receipt.

Context {E : Engine}.
Variable o : BuildReceiptLinesOptions.

(** The debt row is guarded by a condition that never holds. *)
Lemma debt_row_never_emitted : emitted (debtStep o) = [].
Proof.
  unfold debtStep, hasOutstandingDebt.
  now destruct (hasMeaningfulAmount (resolvedRemaining o)).
Qed.

Lemma debtStep_emits_iff :
  emitted (debtStep o) <> []
  <-> hasOutstandingDebt o = false
      /\ hasMeaningfulAmount (resolvedRemaining o) = true.
Proof.
  unfold debtStep. rewrite emitted_when.
  destruct (hasOutstandingDebt o), (hasMeaningfulAmount (resolvedRemaining o));
    cbn [negb andb]; split; try (intros [H1 H2]; discriminate);
    try (intros H; now elim H).
  - intros _. now split.
  - intros _. apply emitted_pushResponsiveColumns_labelled.
    vm_compute. discriminate.
Qed.

Lemma build_through_grand_total :
  buildStandardReceiptLines o
  = linesThroughGrandTotal o ++ emitted (debtStep o) ++ emitted (closingStep o).
Proof.
  rewrite build_sections. unfold linesThroughGrandTotal, linesBeforePaid.
  now rewrite <- !app_assoc.
Qed.

Lemma build_around_paid :
  buildStandardReceiptLines o
  = linesBeforePaid o ++ emitted (paidStep o) ++ linesAfterPaid o.
Proof.
  rewrite build_sections. unfold linesBeforePaid, linesAfterPaid.
  now rewrite <- !app_assoc.
Qed.

Lemma build_around_order_info :
  buildStandardReceiptLines o
  = emitted (headerStep o) ++ emitted (titleStep o)
    ++ emitted (orderInfoStep o) ++ linesAfterOrderInfo o.
Proof. rewrite build_sections. reflexivity. Qed.

End Receipt.

(** C1: the debt row is emitted exactly when [hasOutstandingDebt] is
    false while the resolved remaining amount is meaningful; it stands,
    if at all, between the grand total and the closing lines. In the
    scenario total 100, paid 40, remaining 60 (computed or supplied) the
    debt is outstanding and no row labelled with the debt label is in
    the receipt. *)
Theorem debt_row_condition :
  (forall (E : Engine) (o : BuildReceiptLinesOptions),
      buildStandardReceiptLines o
      = linesThroughGrandTotal o ++ emitted (debtStep o)
        ++ emitted (closingStep o)
      /\ (emitted (debtStep o) <> []
          <-> hasOutstandingDebt o = false
              /\ hasMeaningfulAmount (resolvedRemaining o) = true))
  /\ @hasOutstandingDebt referenceEngine (debtScenario None) = true
  /\ existsb (labelled (utf8 "Borç"))
       (@buildStandardReceiptLines referenceEngine (debtScenario None))
     = false
  /\ @hasOutstandingDebt referenceEngine (debtScenario (Some (ofZ 60))) = true
  /\ existsb (labelled (utf8 "Borç"))
       (@buildStandardReceiptLines referenceEngine
          (debtScenario (Some (ofZ 60))))
     = false.
Proof.
  split.
  - intros E o. split; [apply build_through_grand_total | apply debtStep_emits_iff].
  - repeat split; vm_compute; reflexivity.
Qed.

(** C2: the paid row is always in the receipt, after the tax row. It
    shows the converted total when the resolved remaining amount is
    meaningful and the resolved paid amount otherwise: in one two-column
    line when label and amount fit the available width, and otherwise
    stacked, the label as a text line above the amount. *)
Theorem paid_row_always_emitted (E : Engine) (o : BuildReceiptLinesOptions) :
  buildStandardReceiptLines o
  = linesBeforePaid o ++ emitted (paidStep o) ++ linesAfterPaid o
  /\ emitted (paidStep o) <> []
  /\ emitted (paidStep o)
     = let amount :=
         trim (formatDisplayMoney o
                 (if hasMeaningfulAmount (resolvedRemaining o)
                  then convertSummaryAmount o (total o) None
                  else resolvedPaid o)) in
       if (strlen (utf8 "Ödenen") + strlen amount + 2
           <=? Z.max (receiptWidth o - receiptIndent o) 8)%Z
       then [ColumnsLine (utf8 "Ödenen") amount (receiptIndent o)
               (receiptWidth o) None]
       else TextLine true (utf8 "Ödenen") None None
            :: (if nonEmpty amount
                then [ColumnsLine [] amount (receiptIndent o)
                        (receiptWidth o) None]
                else []).
Proof.
  split; [apply build_around_paid |].
  split.
  - apply emitted_pushResponsiveColumns_labelled. vm_compute. discriminate.
  - unfold paidStep.
    rewrite (appends_emitted _ _ (pushResponsiveColumns_appends o _ _ None)).
    reflexivity.
Qed.

Lemma convertAmount_degenerate (E : Engine) (o : BuildReceiptLinesOptions)
    (value : num) (from : option jsstring) :
  isFinite value = false \/ value = zero ->
  convertAmount o value from = zero
  /\ convertSummaryAmount o value from = zero.
Proof.
  intros H.
  assert (Hn : (if isFinite value then value else zero) = zero).
  { destruct H as [H | ->]; [now rewrite H | reflexivity]. }
  assert (Hc : convertAmount o value from = zero).
  { unfold convertAmount. rewrite Hn.
    replace (isZero zero) with true by reflexivity.
    now rewrite orb_true_r. }
  split; [exact Hc |].
  unfold convertSummaryAmount.
  destruct (orDefault false (summaryAlreadyTarget o)); assumption.
Qed.





(** No step of the builder reads [paymentLabel]. *)
Lemma build_ignores_paymentLabel (E : Engine)
    (a b : BuildReceiptLinesOptions) :
  sameExceptPaymentLabel a b ->
  buildStandardReceiptLines a = buildStandardReceiptLines b.
Proof.
  destruct a, b. unfold sameExceptPaymentLabel. cbn.
  intros H.
  repeat match goal with
         | H : _ /\ _ |- _ => destruct H
         end.
  subst. reflexivity.
Qed.

(** C10: two option records that differ in [paymentLabel] only give the
    same receipt. *)
Theorem paymentLabel_noninterference (E : Engine)
    (a b : BuildReceiptLinesOptions) :
  sameExceptPaymentLabel a b ->
  buildStandardReceiptLines a = buildStandardReceiptLines b.
Proof.
  intros H.
  assert (Hb : b = withPaymentLabel (paymentLabel b) a).
  { destruct a, b. unfold sameExceptPaymentLabel in H. cbn in H.
    repeat match goal with
           | H : _ /\ _ |- _ => destruct H
           end.
    subst. reflexivity. }
  rewrite Hb. destruct a. reflexivity.
Qed.

Lemma paymentLabel_noninterference_witness :
  sameExceptPaymentLabel (changeScenario None)
    (withPaymentLabel (Some (utf8 "Nakit")) (changeScenario None))
  /\ paymentLabel (changeScenario None)
     <> paymentLabel (withPaymentLabel (Some (utf8 "Nakit"))
                        (changeScenario None))
  /\ @buildStandardReceiptLines referenceEngine (changeScenario None)
     = @buildStandardReceiptLines referenceEngine
         (withPaymentLabel (Some (utf8 "Nakit")) (changeScenario None)).
Proof.
  assert (H : sameExceptPaymentLabel (changeScenario None)
                (withPaymentLabel (Some (utf8 "Nakit")) (changeScenario None)))
    by (repeat split).
  split; [exact H |].
  split; [discriminate |].
  apply (paymentLabel_noninterference referenceEngine _ _ H).
Defined.

(** The wrapper passes the label on, and it is as inert there. *)
Lemma sale_paymentLabel_noninterference (E : Engine)
    (s : BuildSaleReceiptOptions) (label : option jsstring) :
  buildStandardReceiptLines (withPaymentLabel label (saleOptions s))
  = buildSaleReceiptLines s.
Proof.
  apply build_ignores_paymentLabel. repeat split.
Qed.


(** ** More on wrapTextToWidth *)

Lemma startsNonSpace_app (a b : jsstring) :
  a <> [] -> startsNonSpace (a ++ b) = startsNonSpace a.
Proof. destruct a; [intros H; now elim H | reflexivity]. Qed.

Lemma endsNonSpace_app (a b : jsstring) :
  b <> [] -> endsNonSpace (a ++ b) = endsNonSpace b.
Proof.
  intros Hb. unfold endsNonSpace.
  destruct (exists_last Hb) as [t [x ->]].
  rewrite app_assoc, !last_last.
  destruct ((a ++ t) ++ [x]) eqn:H1; [now destruct (a ++ t) |].
  destruct (t ++ [x]) eqn:H2; [now destruct t |]. reflexivity.
Qed.

Lemma proper_word_trimmed (w : jsstring) :
  noSpace w = true -> w <> [] ->
  startsNonSpace w = true /\ endsNonSpace w = true.
Proof.
  intros Hn Hw. split.
  - destruct w as [|c w]; [now elim Hw |]. simpl in *.
    now apply andb_true_iff in Hn.
  - unfold endsNonSpace. destruct w as [|c w]; [now elim Hw |].
    unfold noSpace in Hn. rewrite forallb_forall in Hn. apply Hn.
    destruct (exists_last (l := c :: w)) as [t [x ->]]; [discriminate |].
    rewrite last_last. apply in_or_app. right. now left.
Qed.

Section WrapInvariant.

Variable width : Z.

(** A property of the pair [(result, current)] that every turn of the
    loop keeps holds after the loop. *)
Lemma wrap_fold_invariant (I : list jsstring * jsstring -> Prop)
    (ws : list jsstring) :
  (forall st w, I st -> noSpace w = true -> w <> [] ->
                I (wrapStep width st w)) ->
  Forall (fun w => noSpace w = true /\ w <> []) ws ->
  forall st, I st -> I (fold_left (wrapStep width) ws st).
Proof.
  intros Hstep. induction 1 as [|w ws [Hn Hw] _ IH]; intros st Hst; simpl.
  - exact Hst.
  - apply IH. now apply Hstep.
Qed.

(** The shape of one turn on a word. *)
Lemma wrapStep_cases (result : list jsstring) (current w : jsstring) :
  w <> [] ->
  (current = [] /\ wrapStep width (result, current) w = (result, w))
  \/ (current <> []
      /\ (strlen (current ++ SP :: w) <= width)%Z
      /\ wrapStep width (result, current) w = (result, current ++ SP :: w))
  \/ (current <> []
      /\ (width < strlen (current ++ SP :: w))%Z
      /\ wrapStep width (result, current) w = (result ++ [current], w)).
Proof.
  intros Hw. unfold wrapStep.
  apply nonEmpty_iff in Hw. rewrite Hw. cbn [negb].
  destruct current as [|c cur]; cbn [nonEmpty negb]; [now left | right].
  destruct (Z.leb_spec (strlen ((c :: cur) ++ SP :: w)) width).
  - left. repeat split; [discriminate | assumption].
  - right. repeat split; [discriminate | assumption].
Qed.

Lemma wrap_lines_forall (P : jsstring -> Prop) (ws : list jsstring) :
  (forall w, noSpace w = true -> w <> [] -> P w) ->
  (forall c w, P c -> c <> [] -> noSpace w = true -> w <> [] ->
               (strlen (c ++ SP :: w) <= width)%Z -> P (c ++ SP :: w)) ->
  Forall (fun w => noSpace w = true /\ w <> []) ws ->
  Forall P (wrapFlush (fold_left (wrapStep width) ws ([], []))).
Proof.
  intros Hword Hjoin Hws.
  set (I := fun st : list jsstring * jsstring =>
              Forall P (fst st) /\ (snd st = [] \/ P (snd st))).
  assert (HI : I (fold_left (wrapStep width) ws ([], []))).
  { apply wrap_fold_invariant; [| exact Hws | split; [constructor | now left]].
    intros [result current] w [Hr Hc] Hn Hw. cbn [fst snd] in *.
    destruct (wrapStep_cases result current w Hw)
      as [[-> ->] | [[Hne [Hfit ->]] | [Hne [Hlong ->]]]]; cbn [fst snd].
    - split; [exact Hr | right; now apply Hword].
    - destruct Hc as [Hc | Hc]; [contradiction |].
      split; [exact Hr | right; now apply Hjoin].
    - destruct Hc as [Hc | Hc]; [contradiction |].
      split; [| right; now apply Hword].
      apply Forall_app. split; [exact Hr | now constructor]. }
  destruct (fold_left (wrapStep width) ws ([], [])) as [result current].
  destruct HI as [Hr Hc]. cbn [fst snd wrapFlush] in *.
  destruct current as [|c cur]; cbn [nonEmpty]; [exact Hr |].
  destruct Hc as [Hc | Hc]; [discriminate |].
  apply Forall_app. split; [exact Hr | now constructor].
Qed.

End WrapInvariant.

(** X1: no line returned by [wrapTextToWidth] is longer than the width,
    unless it is a single word (a line without white space). *)
Theorem wrapTextToWidth_lines_fit (value : jsstring) (width : Z) :
  Forall (fitsOrOneWord width) (wrapTextToWidth value width).
Proof.
  destruct (nonEmpty (trim value)) eqn:Hne.
  - destruct (strlen (trim value) <=? width)%Z eqn:Hlen.
    + unfold wrapTextToWidth. rewrite Hne, Hlen. cbn [negb].
      constructor; [| constructor]. left. now apply Z.leb_le.
    + rewrite (wrap_long_path value width Hne Hlen).
      apply wrap_lines_forall; [| | apply words_proper].
      * intros w Hn _. now right.
      * intros c w _ _ _ _ Hfit. now left.
  - unfold wrapTextToWidth. rewrite Hne. constructor.
Qed.

Lemma wrapTextToWidth_lines_trimmed_aux (value : jsstring) (width : Z) :
  Forall (fun line => line <> [] /\ trim line = line)
    (wrapTextToWidth value width)
  /\ (wrapTextToWidth value width = [] <-> trim value = []).
Proof.
  assert (Hq : forall line,
             startsNonSpace line = true /\ endsNonSpace line = true ->
             line <> [] /\ trim line = line).
  { intros line [H1 H2]. split; [| now apply trim_fix].
    intros ->. discriminate H1. }
  destruct (nonEmpty (trim value)) eqn:Hne.
  - pose proof (nonEmpty_true _ Hne) as Hne'.
    destruct (strlen (trim value) <=? width)%Z eqn:Hlen.
    + unfold wrapTextToWidth. rewrite Hne, Hlen. cbn [negb]. split.
      * constructor; [| constructor]. apply Hq.
        destruct (trim_shape value) as [H | H]; [contradiction | exact H].
      * split; [discriminate | intros H; contradiction].
    + rewrite (wrap_long_path value width Hne Hlen). split.
      * eapply Forall_impl; [exact Hq |].
        apply wrap_lines_forall; [| | apply words_proper].
        -- intros w Hn Hw. now apply proper_word_trimmed.
        -- intros c w [Hs He] Hc Hn Hw _.
           rewrite startsNonSpace_app by exact Hc. split; [exact Hs |].
           rewrite endsNonSpace_app by discriminate.
           destruct (proper_word_trimmed w Hn Hw) as [_ Hwe].
           unfold endsNonSpace in *. destruct w as [|x w]; [now elim Hw |].
           exact Hwe.
      * split; [| intros H; contradiction].
        intros H.
        pose proof (wrap_fold_lines width _ (fun l => concat (map words l))
                      words_merge (words value) ([], [])
                      (words_nonempty value)) as Hc.
        rewrite H in Hc. cbn in Hc.
        rewrite concat_words_proper in Hc by apply words_proper.
        assert (Hw : words (trim value) = []) by (rewrite words_trim; congruence).
        destruct (trim_shape value) as [Ht | [H1 H2]]; [contradiction |].
        unfold words in Hw. rewrite filter_all in Hw by now apply split_ws_trimmed.
        now apply splitWs_nonnil in Hw.
  - apply nonEmpty_false in Hne. unfold wrapTextToWidth. rewrite Hne.
    split; [constructor | split; reflexivity].
Qed.

(** X2: the lines returned by [wrapTextToWidth] are not empty and have
    no white space at either end, and there is no line at all exactly
    when the input is empty or white space only. *)
Theorem wrapTextToWidth_lines_trimmed (value : jsstring) (width : Z) :
  Forall (fun line => line <> [] /\ trim line = line)
    (wrapTextToWidth value width)
  /\ (wrapTextToWidth value width = [] <-> trim value = []).
Proof.
  destruct (nonEmpty (trim value)) eqn:Hne.
  - split; [apply wrapTextToWidth_lines_trimmed_aux |].
    apply nonEmpty_true in Hne. split; [| intros H; contradiction].
    intros H. now apply wrapTextToWidth_lines_trimmed_aux in H.
  - apply nonEmpty_false in Hne. unfold wrapTextToWidth. rewrite Hne.
    split; [constructor | split; reflexivity].
Qed.

Section Greedy.

Variable width : Z.

Lemma greedyBreaks_replace_last (r : list jsstring) (c c' : jsstring) :
  hd [] (words c') = hd [] (words c) ->
  greedyBreaks width (r ++ [c]) -> greedyBreaks width (r ++ [c']).
Proof.
  intros Hhd. induction r as [|a r IH]; simpl.
  - intros _. now split.
  - intros [Hab Hrest]. split; [| now apply IH].
    destruct r as [|b r]; simpl in *; [now rewrite Hhd | exact Hab].
Qed.

Lemma greedyBreaks_add_line (r : list jsstring) (a b : jsstring) :
  (width < strlen a + 1 + strlen (hd [] (words b)))%Z ->
  greedyBreaks width (r ++ [a]) -> greedyBreaks width (r ++ [a; b]).
Proof.
  intros Hab. induction r as [|x r IH]; simpl.
  - intros _. repeat split. exact Hab.
  - intros [Hx Hrest]. split; [| now apply IH].
    destruct r as [|y r]; simpl in *; exact Hx.
Qed.

Lemma greedy_fold (ws : list jsstring) :
  Forall (fun w => noSpace w = true /\ w <> []) ws ->
  greedyBreaks width (wrapFlush (fold_left (wrapStep width) ws ([], []))).
Proof.
  intros Hws.
  set (I := fun st : list jsstring * jsstring =>
              (snd st = [] -> fst st = [])
              /\ (snd st <> [] -> words (snd st) <> [])
              /\ greedyBreaks width (wrapFlush st)).
  assert (HI : I (fold_left (wrapStep width) ws ([], []))).
  { apply wrap_fold_invariant; [| exact Hws |].
    - intros [result current] w [Hempty [Hwords Hg]] Hn Hw.
      cbn [fst snd] in Hempty, Hwords.
      assert (Hww : words w = [w]) by now apply words_word.
      destruct (wrapStep_cases width result current w Hw)
        as [[-> ->] | [[Hne [Hfit ->]] | [Hne [Hlong ->]]]];
        unfold I; cbn [fst snd].
      + rewrite (Hempty eq_refl). split; [| split].
        * intros ->. now elim Hw.
        * intros _ H. rewrite Hww in H. discriminate H.
        * pose proof Hw as Hw'. apply nonEmpty_iff in Hw'.
          cbn [wrapFlush]. rewrite Hw'. simpl. now split.
      + assert (Hj : words (current ++ SP :: w) = words current ++ [w])
          by (rewrite words_sep by reflexivity; now rewrite Hww).
        split; [| split].
        * intros H. now destruct current.
        * intros _ H. rewrite Hj in H. now destruct (words current).
        * pose proof Hne as Hne'. apply nonEmpty_iff in Hne'.
          cbn [wrapFlush] in *. rewrite Hne' in Hg.
          assert (Hn' : nonEmpty (current ++ SP :: w) = true)
            by now destruct current.
          rewrite Hn'. apply greedyBreaks_replace_last with (c := current);
            [| exact Hg].
          rewrite Hj. specialize (Hwords Hne).
          now destruct (words current).
      + split; [| split].
        * intros ->. now elim Hw.
        * intros _ H. rewrite Hww in H. discriminate H.
        * pose proof Hne as Hne'. apply nonEmpty_iff in Hne'.
          pose proof Hw as Hw'. apply nonEmpty_iff in Hw'.
          cbn [wrapFlush] in *. rewrite Hne' in Hg. rewrite Hw'.
          rewrite <- app_assoc. simpl.
          apply greedyBreaks_add_line; [| exact Hg].
          rewrite Hww. simpl. rewrite strlen_app in Hlong.
          unfold strlen at 2 in Hlong. simpl Datatypes.length in Hlong.
          unfold strlen at 2. lia.
    - split; [| split]; simpl; auto. }
  now destruct HI as [_ [_ Hg]].
Qed.

End Greedy.

(** X3: the wrapping is greedy: wherever [wrapTextToWidth] breaks a
    line, the first word of the next line would not have fitted on the
    line before it (that line, a space and the word exceed the width). *)
Theorem wrapTextToWidth_greedy (value : jsstring) (width : Z) :
  greedyBreaks width (wrapTextToWidth value width).
Proof.
  destruct (nonEmpty (trim value)) eqn:Hne.
  - destruct (strlen (trim value) <=? width)%Z eqn:Hlen.
    + unfold wrapTextToWidth. rewrite Hne, Hlen. simpl. now split.
    + rewrite (wrap_long_path value width Hne Hlen).
      apply greedy_fold, words_proper.
  - unfold wrapTextToWidth. rewrite Hne. exact I.
Qed.

Example wrap_greedy_sample :
  wrapTextToWidth (utf8 "aa bb cc dddddddd e") 5
  = [utf8 "aa bb"; utf8 "cc"; utf8 "dddddddd"; utf8 "e"].
Proof. reflexivity. Qed.

(** ** More on the layout primitives *)

Lemma slice0_length (s : jsstring) (n : Z) :
  (0 <= n)%Z -> strlen (slice0 s n) = Z.min (strlen s) n.
Proof.
  intros Hn. unfold strlen, slice0. rewrite length_firstn. lia.
Qed.

(** X4: a centred line is exactly [max(receiptWidth, 1)] characters
    long whatever the text; a trimmed text that does not fit is cut to
    its first [max(receiptWidth, 1)] characters and gets no padding. *)
Theorem toCenteredLine_exact_width (o : BuildReceiptLinesOptions)
    (value : jsstring) (preset : option Preset) :
  exists text,
    toCenteredLine o value preset = TextLine true text preset None
    /\ strlen text = Z.max (receiptWidth o) 1
    /\ ((Z.max (receiptWidth o) 1 <=? strlen (trim value))%Z = true ->
        text = firstn (Z.to_nat (Z.max (receiptWidth o) 1)) (trim value)).
Proof.
  unfold toCenteredLine.
  set (width := Z.max (receiptWidth o) 1).
  assert (Hw : (1 <= width)%Z) by (unfold width; lia).
  set (text := slice0 (trim value) width).
  assert (Hlen : strlen text = Z.min (strlen (trim value)) width)
    by (apply slice0_length; lia).
  set (padding := Z.max (width - strlen text) 0).
  assert (Hp : (0 <= padding)%Z) by (unfold padding; lia).
  assert (Hd : (0 <= padding / 2 <= padding)%Z).
  { split; [apply Z.div_pos; lia |].
    apply Z.div_le_upper_bound; lia. }
  eexists. split; [reflexivity |]. split.
  - rewrite !strlen_app, !spaces_length by lia. unfold padding. lia.
  - intros Hlong. apply Z.leb_le in Hlong.
    assert (Hz : padding = 0%Z) by (unfold padding; lia).
    rewrite Hz. simpl. now rewrite app_nil_r.
Qed.

Example toCenteredLine_truncates :
  toCenteredLine (withRates None (changeScenario None))
    (utf8 "  abcdefghijklmnopqrstuvwxyz0123456789  ") None
  = TextLine true (utf8 "abcdefghijklmnopqrstuvwxyz012345") None None.
Proof. reflexivity. Qed.

(** What the two-column emitter emits, in full. *)
Lemma emitted_pushResponsiveColumns (o : BuildReceiptLinesOptions)
    (left right : jsstring) (preset : option Preset) :
  emitted (pushResponsiveColumns o left right preset)
  = (if (strlen (trim left) + strlen (trim right) + 2
         <=? Z.max (receiptWidth o - receiptIndent o) 8)%Z
     then [ColumnsLine (trim left) (trim right) (receiptIndent o)
             (receiptWidth o) preset]
     else (if nonEmpty (trim left)
           then [TextLine true (trim left) preset None] else [])
          ++ (if nonEmpty (trim right)
              then [ColumnsLine [] (trim right) (receiptIndent o)
                      (receiptWidth o) preset]
              else [])).
Proof. apply appends_emitted, pushResponsiveColumns_appends. Qed.

(** X5: the two-column emitter appends one or two lines, never none:
    the minimum available width of 8 always holds two empty texts.
    When the right text is not empty, the last line appended is a
    two-column line that carries it with the indent, width and preset
    of the call. *)
Theorem pushResponsiveColumns_one_or_two (o : BuildReceiptLinesOptions)
    (left right : jsstring) (preset : option Preset) :
  (1 <= Datatypes.length (emitted (pushResponsiveColumns o left right preset))
   <= 2)%nat
  /\ (trim right = [] \/
      exists l,
        last (emitted (pushResponsiveColumns o left right preset))
          (EmptyLine 0)
        = ColumnsLine l (trim right) (receiptIndent o) (receiptWidth o)
            preset).
Proof.
  rewrite emitted_pushResponsiveColumns.
  destruct (Z.leb_spec (strlen (trim left) + strlen (trim right) + 2)
              (Z.max (receiptWidth o - receiptIndent o) 8)) as [Hfit | Hover].
  - split; [simpl; lia |].
    right. now exists (trim left).
  - destruct (trim left) as [|c l] eqn:Hl, (trim right) as [|d r] eqn:Hr;
      cbn [nonEmpty app Datatypes.length].
    + unfold strlen in Hover. simpl in Hover. lia.
    + split; [lia |]. right. now exists [].
    + split; [lia |]. now left.
    + split; [lia |]. right. now exists [].
Qed.

Lemma columnRights_app (a b : list ReceiptContentLine) :
  columnRights (a ++ b) = columnRights a ++ columnRights b.
Proof. unfold columnRights. now rewrite flat_map_app. Qed.

Lemma columnRights_pushResponsiveColumns (o : BuildReceiptLinesOptions)
    (left right : jsstring) (preset : option Preset) :
  trim right <> [] ->
  columnRights (emitted (pushResponsiveColumns o left right preset))
  = [trim right].
Proof.
  intros Hr. rewrite emitted_pushResponsiveColumns.
  apply nonEmpty_iff in Hr. rewrite Hr.
  destruct (_ <=? _)%Z; [reflexivity |].
  now destruct (nonEmpty (trim left)).
Qed.

Lemma emitted_pushResponsiveColumns_nonempty (o : BuildReceiptLinesOptions)
    (left right : jsstring) (preset : option Preset) :
  emitted (pushResponsiveColumns o left right preset) <> [].
Proof.
  rewrite emitted_pushResponsiveColumns.
  destruct (Z.leb_spec (strlen (trim left) + strlen (trim right) + 2)
              (Z.max (receiptWidth o - receiptIndent o) 8)) as [Hfit | Hover];
    [discriminate |].
  destruct (trim left) as [|c l], (trim right) as [|d r];
    cbn [nonEmpty app]; try discriminate.
  unfold strlen in Hover. simpl in Hover. lia.
Qed.

Lemma emitted_forEachFrom (A : Type) (xs : list A) (f : nat -> A -> M unit) :
  (forall i x, regular (f i x)) ->
  forall i,
    emitted (forEachFrom i xs f)
    = concat (map (fun p => emitted (f (fst p) (snd p)))
                (combine (seq i (Datatypes.length xs)) xs)).
Proof.
  intros Hf. induction xs as [|x xs IH]; intros i; [reflexivity |].
  cbn [forEachFrom Datatypes.length seq combine map concat fst snd].
  rewrite emitted_bind; [| apply Hf | now apply regular_forEachFrom].
  now rewrite IH.
Qed.

Lemma emitted_forEach (A : Type) (xs : list A) (f : A -> M unit) :
  (forall x, regular (f x)) ->
  emitted (forEach xs f) = flat_map (fun x => emitted (f x)) xs.
Proof.
  intros Hf. unfold forEach.
  assert (H : forall i, emitted (forEachFrom i xs (fun _ => f))
                        = flat_map (fun x => emitted (f x)) xs).
  { induction xs as [|x xs IH]; intros i; [reflexivity |].
    cbn [forEachFrom flat_map].
    rewrite emitted_bind;
      [| apply Hf | apply regular_forEachFrom; intros _; apply Hf].
    now rewrite IH. }
  apply H.
Qed.

Section MetaRow.

Context {E : Engine}.
Variable o : BuildReceiptLinesOptions.

Lemma columnRights_wrapped (label : jsstring) (preset : option Preset)
    (wrapped : list jsstring) :
  Forall (fun line => line <> [] /\ trim line = line) wrapped ->
  columnRights
    (flat_map (fun line => emitted (pushResponsiveColumns o label line preset))
       wrapped)
  = wrapped.
Proof.
  induction 1 as [|line rest [Hne Ht] _ IH]; [reflexivity |].
  cbn [flat_map]. rewrite columnRights_app, IH.
  rewrite columnRights_pushResponsiveColumns by (rewrite Ht; exact Hne).
  now rewrite Ht.
Qed.

(** The lines of a meta row whose value wraps into [first :: wrapped]. *)
Lemma emitted_addMetaRow_lines (label : jsstring) (v : MetaValue)
    (preset : option Preset) :
  emitted (addMetaRow o label (Some v) preset)
  = match wrapTextToWidth (metaText v) (availableWidth o) with
    | [] => []
    | first :: wrapped =>
        emitted (pushResponsiveColumns o label first preset)
        ++ flat_map
             (fun line => emitted (pushResponsiveColumns o [] line preset))
             wrapped
    end.
Proof.
  assert (Hgen :
    emitted
      (match wrapTextToWidth (metaText v) (availableWidth o) with
       | [] => ret tt
       | first :: wrapped =>
           pushResponsiveColumns o label first preset ;;
           forEach wrapped
             (fun line => pushResponsiveColumns o [] line preset)
       end)
    = match wrapTextToWidth (metaText v) (availableWidth o) with
      | [] => []
      | first :: wrapped =>
          emitted (pushResponsiveColumns o label first preset)
          ++ flat_map
               (fun line => emitted (pushResponsiveColumns o [] line preset))
               wrapped
      end).
  { destruct (wrapTextToWidth (metaText v) (availableWidth o))
      as [|first wrapped]; [reflexivity |].
    rewrite emitted_bind;
      [| apply regular_pushResponsiveColumns
       | apply regular_forEach; intros; apply regular_pushResponsiveColumns].
    rewrite emitted_forEach
      by (intros; apply regular_pushResponsiveColumns).
    reflexivity. }
  destruct v as [[|c s] | n]; first [exact Hgen | reflexivity].
Qed.

End MetaRow.

(** X6: a meta row emits no line exactly when its value is absent or
    prints as an empty or white-space-only text; a value given as the
    empty string is covered by the second case. *)
Theorem addMetaRow_silent_iff (E : Engine) (o : BuildReceiptLinesOptions)
    (label : jsstring) (value : option MetaValue) (preset : option Preset) :
  emitted (addMetaRow o label value preset) = []
  <-> (value = None \/ exists v, value = Some v /\ trim (metaText v) = []).
Proof.
  destruct value as [v|].
  - rewrite emitted_addMetaRow_lines.
    pose proof (wrapTextToWidth_lines_trimmed_aux (metaText v) (availableWidth o))
      as [_ Hiff].
    destruct (wrapTextToWidth (metaText v) (availableWidth o))
      as [|first wrapped] eqn:Hw.
    + split; [| reflexivity]. intros _. right. exists v.
      split; [reflexivity | now apply Hiff].
    + split.
      * intros H. apply app_eq_nil in H. destruct H as [H _].
        now apply emitted_pushResponsiveColumns_nonempty in H.
      * intros [H | [v' [Hv Ht]]]; [discriminate |].
        injection Hv as <-. apply Hiff in Ht. discriminate Ht.
  - split; [now left | reflexivity].
Qed.

(** X7: the right texts of the two-column lines of a meta row are, in
    order, the lines its value wraps into at the available width:
    nothing of the value is dropped or changed, whether a line is
    stacked under its label or not. *)
Theorem addMetaRow_rights (E : Engine) (o : BuildReceiptLinesOptions)
    (label : jsstring) (v : MetaValue) (preset : option Preset) :
  columnRights (emitted (addMetaRow o label (Some v) preset))
  = wrapTextToWidth (metaText v)
      (Z.max (receiptWidth o - receiptIndent o) 8).
Proof.
  rewrite emitted_addMetaRow_lines. fold (availableWidth o).
  pose proof (wrapTextToWidth_lines_trimmed_aux (metaText v) (availableWidth o))
    as [Hall _].
  destruct (wrapTextToWidth (metaText v) (availableWidth o))
    as [|first wrapped]; [reflexivity |].
  inversion Hall as [|? ? [Hne Ht] Hrest]; subst.
  rewrite columnRights_app, columnRights_wrapped by exact Hrest.
  rewrite columnRights_pushResponsiveColumns by (rewrite Ht; exact Hne).
  now rewrite Ht.
Qed.

(** ** The order information block and the seller row *)

Lemma sellerRow_value (o : BuildReceiptLinesOptions) :
  row_value (sellerRow o) = Some (MStr (sellerText o)).
Proof.
  unfold sellerRow, sellerText. now destruct (sellerName o) as [[|c s]|].
Qed.

Lemma sellerText_blank_iff (o : BuildReceiptLinesOptions) :
  trim (sellerText o) = []
  <-> exists s, sellerName o = Some s /\ s <> [] /\ trim s = [].
Proof.
  unfold sellerText. destruct (sellerName o) as [[|c s]|].
  - split; [vm_compute; discriminate |].
    intros [s [Hs [Hne _]]]. injection Hs as <-. now elim Hne.
  - split.
    + intros H. exists (c :: s). now repeat split.
    + intros [s' [Hs [_ Ht]]]. now injection Hs as <-.
  - split; [vm_compute; discriminate |].
    intros [s [Hs _]]. discriminate Hs.
Qed.

Lemma wrap_fallback_label (width : Z) :
  (8 <= width)%Z -> wrapTextToWidth (utf8 "Satıcı") width = [utf8 "Satıcı"].
Proof.
  intros Hw. unfold wrapTextToWidth.
  change (trim (utf8 "Satıcı")) with (utf8 "Satıcı").
  change (negb (nonEmpty (utf8 "Satıcı"))) with false.
  change (strlen (utf8 "Satıcı")) with 6%Z. cbv iota.
  now replace (6 <=? width)%Z with true by (symmetry; apply Z.leb_le; lia).
Qed.

Lemma sellerText_fallback (o : BuildReceiptLinesOptions) :
  truthyStr (sellerName o) = false -> sellerText o = utf8 "Satıcı".
Proof.
  unfold sellerText, truthyStr.
  destruct (sellerName o) as [[|c s]|]; [reflexivity | discriminate | reflexivity].
Qed.

(** C9, as the code has it: the seller row is always among the meta
    rows, its value the seller name, or the fallback label when the
    name is absent or the empty string; the order information block is
    skipped exactly when there is no meta row, which never happens; so
    the block (centred subtitle, dotted separator, the lines of the meta
    rows in order, separator) is in every receipt, after the title. The
    lines of the seller row are those of its text wrapped at the
    available width, the label beside (or stacked above) the first:
    for an absent or empty name that is the label against the fallback
    text. The row has no line at all exactly when the seller name is a
    non-empty string of white space only, which is not replaced by the
    fallback. *)
Theorem order_info_block_always_present (E : Engine)
    (o : BuildReceiptLinesOptions) :
  In (sellerRow o) (metaRows o)
  /\ row_label (sellerRow o) = utf8 "Satıcı"
  /\ row_value (sellerRow o) = Some (MStr (sellerText o))
  /\ (emitted (orderInfoStep o) = [] <-> metaRows o = [])
  /\ emitted (orderInfoStep o)
     = toCenteredLine o (utf8 "Sipariş Bilgileri") (Some medium)
       :: dottedSeparator o
       :: flat_map
            (fun row => emitted (addMetaRow o (row_label row)
                                   (row_value row) None))
            (metaRows o)
       ++ [separator o]
  /\ emitted (addMetaRow o (row_label (sellerRow o))
                (row_value (sellerRow o)) None)
     = match wrapTextToWidth (sellerText o)
               (Z.max (receiptWidth o - receiptIndent o) 8) with
       | [] => []
       | first :: wrapped =>
           emitted (pushResponsiveColumns o (utf8 "Satıcı") first None)
           ++ flat_map
                (fun line => emitted (pushResponsiveColumns o [] line None))
                wrapped
       end
  /\ (truthyStr (sellerName o) = false ->
      emitted (addMetaRow o (row_label (sellerRow o))
                 (row_value (sellerRow o)) None)
      = if (14 <=? Z.max (receiptWidth o - receiptIndent o) 8)%Z
        then [ColumnsLine (utf8 "Satıcı") (utf8 "Satıcı") (receiptIndent o)
                (receiptWidth o) None]
        else [TextLine true (utf8 "Satıcı") None None;
              ColumnsLine [] (utf8 "Satıcı") (receiptIndent o)
                (receiptWidth o) None])
  /\ (emitted (addMetaRow o (row_label (sellerRow o))
                 (row_value (sellerRow o)) None) = []
      <-> exists s, sellerName o = Some s /\ s <> [] /\ trim s = [])
  /\ buildStandardReceiptLines o
     = emitted (headerStep o) ++ emitted (titleStep o)
       ++ emitted (orderInfoStep o) ++ linesAfterOrderInfo o.
Proof.
  assert (Hin : In (sellerRow o) (metaRows o)).
  { unfold metaRows. do 3 (apply in_or_app; right).
    apply in_or_app. left. now left. }
  assert (Hrows : hasLength (metaRows o) = true).
  { destruct (metaRows o); [now elim Hin | reflexivity]. }
  assert (Hblock :
    emitted (orderInfoStep o)
    = toCenteredLine o (utf8 "Sipariş Bilgileri") (Some medium)
      :: dottedSeparator o
      :: flat_map
           (fun row => emitted (addMetaRow o (row_label row)
                                  (row_value row) None))
           (metaRows o)
      ++ [separator o]).
  { unfold orderInfoStep. rewrite Hrows. cbn [when].
    assert (Hf : regular (forEach (metaRows o)
                   (fun row => addMetaRow o (row_label row) (row_value row)
                                 None)))
      by (apply regular_forEach; intros row; apply regular_addMetaRow).
    rewrite !emitted_bind; auto using regular_push, regular_bind.
    rewrite emitted_forEach by (intros row; apply regular_addMetaRow).
    reflexivity. }
  assert (Hlines :
    emitted (addMetaRow o (row_label (sellerRow o))
               (row_value (sellerRow o)) None)
    = match wrapTextToWidth (sellerText o)
              (Z.max (receiptWidth o - receiptIndent o) 8) with
      | [] => []
      | first :: wrapped =>
          emitted (pushResponsiveColumns o (utf8 "Satıcı") first None)
          ++ flat_map
               (fun line => emitted (pushResponsiveColumns o [] line None))
               wrapped
      end).
  { rewrite sellerRow_value. apply emitted_addMetaRow_lines. }
  split; [exact Hin |].
  split; [reflexivity |].
  split; [apply sellerRow_value |].
  split.
  { rewrite Hblock. split; [discriminate |].
    intros H. rewrite H in Hin. now elim Hin. }
  split; [exact Hblock |].
  split; [exact Hlines |].
  split.
  { intros Hname. rewrite Hlines, (sellerText_fallback o Hname).
    rewrite wrap_fallback_label by lia. cbn [flat_map].
    rewrite app_nil_r, emitted_pushResponsiveColumns.
    change (trim (utf8 "Satıcı")) with (utf8 "Satıcı").
    change (strlen (utf8 "Satıcı") + strlen (utf8 "Satıcı") + 2)%Z
      with 14%Z.
    reflexivity. }
  split; [| apply build_around_order_info].
  rewrite Hlines, <- sellerText_blank_iff.
  pose proof (wrapTextToWidth_lines_trimmed_aux (sellerText o)
                (Z.max (receiptWidth o - receiptIndent o) 8)) as [_ Hiff].
  destruct (wrapTextToWidth (sellerText o)
              (Z.max (receiptWidth o - receiptIndent o) 8))
    as [|first wrapped].
  - split; [intros _; now apply Hiff | reflexivity].
  - split.
    + intros H. apply app_eq_nil in H. destruct H as [H _].
      now apply emitted_pushResponsiveColumns_nonempty in H.
    + intros H. apply Hiff in H. discriminate H.
Qed.

(** C9 as stated fails: a seller name of white space only is not
    replaced by the fallback and prints nothing, so the block holds no
    seller row and no line of the receipt carries the label. *)
Lemma blank_seller_prints_no_row :
  sellerName blankSellerScenario = Some (utf8 "   ")
  /\ row_value (sellerRow blankSellerScenario)
     = Some (MStr (utf8 "   "))
  /\ emitted (@orderInfoStep referenceEngine blankSellerScenario)
     = [toCenteredLine blankSellerScenario (utf8 "Sipariş Bilgileri")
          (Some medium);
        dottedSeparator blankSellerScenario;
        separator blankSellerScenario]
  /\ existsb (labelled (utf8 "Satıcı"))
       (@buildStandardReceiptLines referenceEngine blankSellerScenario)
     = false.
Proof. repeat split. Qed.

(** ** More on the receipt *)

Lemma itemNameLines_app (a b : list ReceiptContentLine) :
  itemNameLines (a ++ b) = itemNameLines a ++ itemNameLines b.
Proof. unfold itemNameLines. now rewrite flat_map_app. Qed.

Lemma blankCount_app (a b : list ReceiptContentLine) :
  blankCount (a ++ b) = (blankCount a + blankCount b)%nat.
Proof. unfold blankCount. now rewrite filter_app, length_app. Qed.

Lemma pushResponsiveColumns_no_item_lines (o : BuildReceiptLinesOptions)
    (left right : jsstring) (preset : option Preset) :
  itemNameLines (emitted (pushResponsiveColumns o left right preset)) = []
  /\ blankCount (emitted (pushResponsiveColumns o left right preset)) = 0%nat.
Proof.
  rewrite emitted_pushResponsiveColumns.
  destruct (_ <=? _)%Z; [now split |].
  destruct (nonEmpty (trim left)), (nonEmpty (trim right)); now split.
Qed.

Section Items.

Context {E : Engine}.
Variable o : BuildReceiptLinesOptions.

Lemma emitted_itemStep (i : nat) (item : ReceiptItem) :
  itemNameLines (emitted (itemStep o i item)) = [displayName item]
  /\ blankCount (emitted (itemStep o i item))
     = (if (0 <? i)%nat then 1 else 0)%nat.
Proof.
  unfold itemStep.
  rewrite !emitted_bind;
    auto using regular_when, regular_push, regular_bind,
      regular_pushResponsiveColumns.
  rewrite !itemNameLines_app, !blankCount_app.
  match goal with
  | |- context [emitted (pushResponsiveColumns o ?l ?r ?p)] =>
      destruct (pushResponsiveColumns_no_item_lines o l r p) as [-> ->]
  end.
  destruct (0 <? i)%nat; now split.
Qed.

Lemma emitted_items_from (xs : list ReceiptItem) :
  forall i,
    itemNameLines (emitted (forEachFrom i xs (itemStep o)))
    = map displayName xs
    /\ blankCount (emitted (forEachFrom i xs (itemStep o)))
       = (match i with
          | O => Datatypes.length xs - 1
          | S _ => Datatypes.length xs
          end)%nat.
Proof.
  induction xs as [|x xs IH]; intros i.
  - split; [reflexivity | now destruct i].
  - cbn [forEachFrom].
    rewrite emitted_bind;
      [| apply regular_itemStep
       | apply regular_forEachFrom; intros; apply regular_itemStep].
    rewrite itemNameLines_app, blankCount_app.
    destruct (emitted_itemStep i x) as [-> ->].
    destruct (IH (S i)) as [-> ->].
    split; [reflexivity |].
    destruct i; simpl; lia.
Qed.

End Items.

Lemma joinBlocks_cons (sep : ReceiptContentLine)
    (b : list ReceiptContentLine) (bs : list (list ReceiptContentLine)) :
  joinBlocks sep (b :: bs) = b ++ flat_map (fun b' => sep :: b') bs.
Proof.
  revert b. induction bs as [|c bs IH]; intros b.
  - simpl. now rewrite app_nil_r.
  - change (joinBlocks sep (b :: c :: bs))
      with (b ++ sep :: joinBlocks sep (c :: bs)).
    now rewrite IH.
Qed.

Section ItemBlocks.

Context {E : Engine}.
Variable o : BuildReceiptLinesOptions.

Lemma emitted_itemStep_lines (i : nat) (item : ReceiptItem) :
  emitted (itemStep o i item)
  = (if (0 <? i)%nat then [EmptyLine 1] else []) ++ itemBlock o item.
Proof.
  unfold itemStep, itemBlock, displayName.
  rewrite !emitted_bind;
    auto using regular_when, regular_push, regular_bind,
      regular_pushResponsiveColumns.
  rewrite emitted_when. now destruct (0 <? i)%nat.
Qed.

Lemma emitted_later_items (xs : list ReceiptItem) (i : nat) :
  emitted (forEachFrom (S i) xs (itemStep o))
  = flat_map (fun b => EmptyLine 1 :: b) (map (itemBlock o) xs).
Proof.
  revert i. induction xs as [|x xs IH]; intros i; [reflexivity |].
  cbn [forEachFrom map flat_map].
  rewrite emitted_bind;
    [| apply regular_itemStep
     | apply regular_forEachFrom; intros; apply regular_itemStep].
  now rewrite emitted_itemStep_lines, IH.
Qed.

Lemma itemBlock_no_blank (item : ReceiptItem) :
  blankCount (itemBlock o item) = 0%nat.
Proof.
  unfold itemBlock. cbv zeta.
  match goal with
  | |- context [emitted (pushResponsiveColumns o ?l ?r ?p)] =>
      destruct (pushResponsiveColumns_no_item_lines o l r p) as [_ H]
  end.
  exact H.
Qed.

End ItemBlocks.

(** X8: without items the item block is the single centred empty-items
    message (the default text when none is given). With items, the
    block is the blocks of the items in input order, each the item name
    (an empty name printed as the fallback name) followed by its
    quantity and price row, with exactly one blank-line entry of count 1
    between consecutive items, none before the first item, none after
    the last, and none inside an item. *)
Theorem items_block (E : Engine) (o : BuildReceiptLinesOptions) :
  match orDefault [] (items o) with
  | [] =>
      emitted (itemsStep o)
      = [TextLine false
           (orDefault (utf8 "Ürün bulunamadı.") (itemsEmptyMessage o))
           None (Some alignCenter)]
  | x :: xs =>
      emitted (itemsStep o)
      = joinBlocks (EmptyLine 1) (map (itemBlock o) (x :: xs))
      /\ Forall (fun b => blankCount b = 0%nat) (map (itemBlock o) (x :: xs))
      /\ itemNameLines (emitted (itemsStep o)) = map displayName (x :: xs)
      /\ blankCount (emitted (itemsStep o)) = Datatypes.length xs
  end.
Proof.
  unfold itemsStep.
  destruct (orDefault [] (items o)) as [|x xs]; [reflexivity |].
  cbn [hasLength negb].
  split.
  { cbn [forEachFrom map].
    rewrite emitted_bind;
      [| apply regular_itemStep
       | apply regular_forEachFrom; intros; apply regular_itemStep].
    now rewrite emitted_itemStep_lines, emitted_later_items,
      joinBlocks_cons. }
  split.
  { apply Forall_forall. intros b Hb. apply in_map_iff in Hb.
    destruct Hb as [item [<- _]]. apply itemBlock_no_blank. }
  destruct (emitted_items_from o (x :: xs) 0) as [-> ->].
  split; [reflexivity | simpl; lia].
Qed.

Example items_block_sample :
  emitted (@itemsStep referenceEngine (debtScenario None))
  = [TextLine false (utf8 "Kahve") (Some medium) (Some alignLeft);
     ColumnsLine (utf8 "2 x 25.00 TL") (utf8 "50.00 TL") 1 32 None;
     EmptyLine 1;
     TextLine false (utf8 "Kahve") (Some medium) (Some alignLeft);
     ColumnsLine (utf8 "2 x 25.00 TL") (utf8 "50.00 TL") 1 32 None].
Proof. reflexivity. Qed.

(** X9: each of the subtotal, discount and tax rows is emitted exactly
    when its amount, as supplied and before any conversion, is
    meaningful; an amount that is NaN gives no row. *)
Theorem summary_rows_iff (E : Engine) (o : BuildReceiptLinesOptions) :
  (emitted (subtotalStep o) <> []
   <-> hasMeaningfulAmount (subtotal o) = true)
  /\ (emitted (discountStep o) <> []
      <-> hasMeaningfulAmount (totalDiscount o) = true)
  /\ (emitted (taxStep o) <> []
      <-> hasMeaningfulAmount (totalTax o) = true)
  /\ hasMeaningfulAmount NaN = false.
Proof.
  assert (Hwhen : forall b l r p,
    emitted (when b (pushResponsiveColumns o l r p)) <> [] <-> b = true).
  { intros b l r p. rewrite emitted_when. destruct b.
    - split; [reflexivity |]. intros _.
      apply emitted_pushResponsiveColumns_nonempty.
    - split; [intros H; now elim H | discriminate]. }
  repeat split; try apply Hwhen; try (intros H; apply Hwhen; exact H).
Qed.

Section Tail.

Context {E : Engine}.
Variable o : BuildReceiptLinesOptions.

Lemma emitted_grandTotalStep :
  emitted (grandTotalStep o)
  = [dottedSeparator o;
     toCenteredLine o (utf8 "Genel Toplam") (Some medium);
     TextLine false (formatDisplayMoney o (totalDisplay o)) (Some large) None].
Proof. reflexivity. Qed.

Lemma emitted_closingStep :
  emitted (closingStep o) = EmptyLine 1 :: thanksLines o ++ [EmptyLine 30].
Proof.
  unfold closingStep, thanksLines.
  destruct (thankYouMessage o) as [| |[|c msg]]; reflexivity.
Qed.

Lemma emitted_headerStep :
  emitted (headerStep o)
  = match orDefault [] (tenantHeaderLines o) with
    | [] => []
    | hdr => hdr ++ [separator o]
    end.
Proof.
  unfold headerStep. destruct (orDefault [] (tenantHeaderLines o)); reflexivity.
Qed.

Lemma emitted_titleStep : emitted (titleStep o) = titleLines o.
Proof.
  unfold titleStep, titleLines. destruct (title o) as [[|c t]|]; reflexivity.
Qed.

End Tail.

(** X10: every receipt ends the same way. After the paid row and the
    change row come the dotted separator, the centred grand-total
    caption, the total as a large text line, one blank line, the centred
    thank-you message (the default text when the option is undefined,
    no line when it is null or empty) and thirty blank lines; no debt
    row or other line stands in between. *)
Theorem receipt_tail (E : Engine) (o : BuildReceiptLinesOptions) :
  buildStandardReceiptLines o
  = (linesBeforePaid o ++ emitted (paidStep o) ++ emitted (changeStep o))
    ++ [dottedSeparator o;
        toCenteredLine o (utf8 "Genel Toplam") (Some medium);
        TextLine false (formatDisplayMoney o (totalDisplay o)) (Some large)
          None;
        EmptyLine 1]
    ++ thanksLines o ++ [EmptyLine 30].
Proof.
  rewrite build_sections, debt_row_never_emitted, emitted_grandTotalStep,
    emitted_closingStep.
  unfold linesBeforePaid. rewrite <- !app_assoc. reflexivity.
Qed.

(** X11: every receipt opens the same way. The tenant header lines, if
    any, come first and unchanged, followed by a separator; then the
    centred title and a separator (the default title when the option is
    undefined, no title block when it is the empty string); then the
    order information block. *)
Theorem receipt_head (E : Engine) (o : BuildReceiptLinesOptions) :
  buildStandardReceiptLines o
  = orDefault [] (tenantHeaderLines o)
    ++ (if hasLength (orDefault [] (tenantHeaderLines o))
        then [separator o] else [])
    ++ titleLines o
    ++ emitted (orderInfoStep o)
    ++ linesAfterOrderInfo o.
Proof.
  rewrite build_around_order_info, emitted_headerStep, emitted_titleStep.
  destruct (orDefault [] (tenantHeaderLines o)); [reflexivity |].
  cbn [hasLength]. now rewrite <- !app_assoc.
Qed.

(** *** The change row *)

Lemma meaningful_max_zero (d : num) :
  hasMeaningfulAmount (Math_max d zero) = ngeb d epsilon.
Proof.
  destruct d as [a| | |]; try reflexivity.
  unfold Math_max, zero. destruct (Qcleb a (Q2Qc 0)) eqn:Ha.
  - transitivity false; [reflexivity |].
    symmetry. unfold ngeb, nleb, epsilon.
    destruct (Qcleb (Q2Qc (5 # 1000)) a) eqn:Hb; [| reflexivity].
    apply Qcleb_le in Ha, Hb.
    pose proof (Qcle_trans _ _ _ Hb Ha) as Hc.
    apply Qcleb_le in Hc. discriminate Hc.
  - unfold hasMeaningfulAmount, Math_abs.
    assert (Hlt : Qcltb a (Q2Qc 0) = false).
    { apply Qcltb_ge. apply Qclt_le_weak, Qcnot_le_lt. intros H.
      apply Qcleb_le in H. congruence. }
    now rewrite Hlt.
Qed.

(** X12: when the caller supplies no change amount, the change row is
    emitted exactly when the resolved paid amount exceeds the displayed
    total by at least 0.005; paying the exact total, or less, gives no
    change row. *)
Theorem change_row_iff_overpaid (E : Engine) (o : BuildReceiptLinesOptions) :
  changeAmount o = None ->
  (emitted (changeStep o) <> []
   <-> ngeb (nsub (resolvedPaid o) (totalDisplay o)) epsilon = true).
Proof.
  intros Hc. unfold changeStep. rewrite emitted_when.
  unfold resolvedChange. rewrite Hc, meaningful_max_zero.
  destruct (ngeb (nsub (resolvedPaid o) (totalDisplay o)) epsilon).
  - split; [reflexivity |]. intros _.
    apply emitted_pushResponsiveColumns_nonempty.
  - split; [intros H; now elim H | discriminate].
Qed.

Lemma change_row_iff_overpaid_witness :
  changeAmount (sampleOptions [kahve] (ofZ 50) zero zero (ofZ 50)
                  (Some (ofZ 60)) (Some zero) None) = None
  /\ emitted (@changeStep referenceEngine
                (sampleOptions [kahve] (ofZ 50) zero zero (ofZ 50)
                   (Some (ofZ 60)) (Some zero) None))
     <> [].
Proof.
  split; [reflexivity |].
  apply (change_row_iff_overpaid referenceEngine
           (sampleOptions [kahve] (ofZ 50) zero zero (ofZ 50)
              (Some (ofZ 60)) (Some zero) None) eq_refl).
  reflexivity.
Defined.

(** ** More on the conversions *)

Lemma zero_eq (q : Qc) : Qceqb q (Q2Qc 0) = true -> Fin q = zero.
Proof. intros H. apply Qceqb_eq in H. now subst. Qed.






(** The hypothesis is needed: with infinite rates on both sides the
    amount in lira is infinite and its quotient by an infinite rate is
    NaN. *)
Example conversion_NaN_with_infinite_rates :
  @convertAmount referenceEngine infiniteRatesScenario (ofZ 10)
    (Some (utf8 "usd"))
  = NaN.
Proof. reflexivity. Qed.

(** X14: [convertAmount] turns zero and every amount that is not finite
    (NaN, either infinity) into 0 whatever the currencies and rates;
    and without a rate table it returns a finite amount unchanged, even
    when source and target currency differ. *)
Theorem conversion_edge_cases (E : Engine) (o : BuildReceiptLinesOptions)
    (value : num) (from : option jsstring) :
  (isFinite value = false \/ value = zero ->
   convertAmount o value from = zero)
  /\ (rates o = None -> isFinite value = true ->
      convertAmount o value from = value).
Proof.
  split.
  - intros H. now apply convertAmount_degenerate.
  - intros Hr Hf. unfold convertAmount. rewrite Hr, Hf.
    now rewrite orb_true_r.
Qed.

(** X15: between two different foreign currencies [convertAmount]
    goes through the lira: a non-zero amount [a] in a currency with
    rate [rs], shown in a currency with rate [rt], is [a * rs / rt]. *)
Theorem conversion_cross_rate (E : Engine) (o : BuildReceiptLinesOptions)
    (src : jsstring) (s t : CurrencyCode) (table : Rates) (a rs rt : Qc) :
  normalizeCurrency (Some src) = s ->
  resolvedTargetCurrency o = t ->
  s <> TRY -> t <> TRY -> s <> t ->
  rates o = Some table ->
  table s = Some (Fin rs) -> table t = Some (Fin rt) ->
  a <> Q2Qc 0 -> (Q2Qc 0 < rs)%Qc -> (Q2Qc 0 < rt)%Qc ->
  convertAmount o (Fin a) (Some src) = Fin (a * rs / rt)%Qc.
Proof.
  intros Hs Ht Hs0 Ht0 Hst Hr Hrs Hrt Ha Hps Hpt.
  assert (Hrs0 : rs <> Q2Qc 0) by (intros ->; now apply Qclt_not_eq in Hps).
  assert (Hrt0 : rt <> Q2Qc 0) by (intros ->; now apply Qclt_not_eq in Hpt).
  assert (Hus : usableRate (lookupRate (rates o) s) = Some (Fin rs)).
  { rewrite Hr. simpl. rewrite Hrs. unfold usableRate, truthy, ngtb, nltb, zero.
    rewrite (Qceqb_neq _ _ Hrs0). apply Qcltb_lt in Hps. now rewrite Hps. }
  assert (Hut : usableRate (lookupRate (rates o) t) = Some (Fin rt)).
  { rewrite Hr. simpl. rewrite Hrt. unfold usableRate, truthy, ngtb, nltb, zero.
    rewrite (Qceqb_neq _ _ Hrt0). apply Qcltb_lt in Hpt. now rewrite Hpt. }
  assert (Hm : (a * rs)%Qc <> Q2Qc 0).
  { intros H. apply Qcmult_integral in H. tauto. }
  unfold convertAmount. cbn [isFinite orDefault].
  rewrite Hs, Ht, Hr, (code_eqb_neq _ _ Hst), (code_eqb_neq _ _ Ht0),
    (code_eqb_neq _ _ Hs0).
  cbn [isZero orb]. rewrite (Qceqb_neq _ _ Ha).
  unfold toTRY, fromTRY.
  rewrite (code_eqb_neq _ _ Hs0), (code_eqb_neq _ _ Ht0), <- Hr, Hus, Hut.
  cbn [truthy negb nmul]. rewrite (Qceqb_neq _ _ Ha). cbn [negb truthy].
  rewrite (Qceqb_neq _ _ Hm). cbn [negb ndiv].
  now rewrite (Qceqb_neq _ _ Hrt0).
Qed.

Lemma Qc_nonzero (n : Z) (d : positive) : n <> 0%Z -> Q2Qc (n # d) <> Q2Qc 0.
Proof.
  intros Hn H. apply Q2Qc_eq_iff in H. unfold Qeq in H. simpl in H. lia.
Qed.

Lemma conversion_cross_rate_witness :
  @convertAmount referenceEngine crossScenario (Fin (Q2Qc (10 # 1)))
    (Some (utf8 "usd"))
  = Fin (Q2Qc (10 # 1) * Q2Qc (40 # 1) / Q2Qc (50 # 1))%Qc.
Proof.
  apply (@conversion_cross_rate referenceEngine crossScenario (utf8 "usd")
           USD EUR (twoRates USD (dec 40 1) EUR (dec 50 1))
           (Q2Qc (10 # 1)) (Q2Qc (40 # 1)) (Q2Qc (50 # 1)));
    first [reflexivity | discriminate | apply Qc_nonzero; lia].
Defined.

Example cross_rate_value :
  @convertAmount referenceEngine crossScenario (ofZ 10) (Some (utf8 "usd"))
  = ofZ 8.
Proof. apply (f_equal Fin). apply Qc_is_canon. reflexivity. Qed.

(** X16: a conversion never turns an amount that is not negative into
    a negative one: usable rates are positive, and a missing rate gives
    0 or the amount itself. *)
Theorem conversion_keeps_sign (E : Engine) (o : BuildReceiptLinesOptions)
    (x : num) (code : CurrencyCode) (table : option Rates)
    (from : option jsstring) :
  notNegative x ->
  notNegative (toTRY x code table)
  /\ notNegative (fromTRY x code table)
  /\ notNegative (convertAmount o x from)
  /\ notNegative (convertSummaryAmount o x from).
Proof.
  intros Hx. repeat split.
  - now apply toTRY_notNegative.
  - now apply fromTRY_notNegative.
  - now apply convertAmount_notNegative.
  - now apply convertSummaryAmount_notNegative.
Qed.

Lemma conversion_keeps_sign_witness :
  notNegative (ofZ 10)
  /\ notNegative (toTRY (ofZ 10) USD (Some (singleRate USD (dec 413 10))))
  /\ notNegative (fromTRY (ofZ 10) USD (Some (singleRate USD (dec 413 10))))
  /\ notNegative (@convertAmount referenceEngine crossScenario (ofZ 10) None)
  /\ notNegative
       (@convertSummaryAmount referenceEngine crossScenario (ofZ 10) None).
Proof.
  assert (H : notNegative (ofZ 10)) by reflexivity.
  split; [exact H |].
  apply (conversion_keeps_sign referenceEngine crossScenario (ofZ 10) USD
           (Some (singleRate USD (dec 413 10))) None H).
Defined.

(** X17: the round trip the other way: with exact arithmetic, converting
    a non-zero lira amount to a currency with a positive rate and back
    returns the amount. *)
Theorem conversion_round_trip_from_lira (code : CurrencyCode) (r a : Qc)
    (rates : option Rates) :
  code <> TRY -> (Q2Qc 0 < r)%Qc -> a <> Q2Qc 0 ->
  lookupRate rates code = Some (Fin r) ->
  toTRY (fromTRY (Fin a) code rates) code rates = Fin a.
Proof.
  intros Hc Hr Ha Hl.
  assert (Hr0 : r <> Q2Qc 0) by (intros ->; now apply Qclt_not_eq in Hr).
  assert (Hu : usableRate (lookupRate rates code) = Some (Fin r)).
  { rewrite Hl. unfold usableRate, truthy, ngtb, nltb, zero.
    rewrite (Qceqb_neq _ _ Hr0). apply Qcltb_lt in Hr. now rewrite Hr. }
  assert (Hback : (a / r * r)%Qc = a).
  { rewrite Qcmult_comm. now apply Qcmult_div_r. }
  assert (Hd : (a / r)%Qc <> Q2Qc 0).
  { intros H. apply Ha. rewrite <- Hback, H. apply Qcmult_0_l. }
  unfold toTRY, fromTRY.
  rewrite (code_eqb_neq _ _ Hc), Hu. cbn [truthy negb ndiv].
  rewrite (Qceqb_neq _ _ Ha), (Qceqb_neq _ _ Hr0). cbn [negb truthy].
  rewrite (Qceqb_neq _ _ Hd). cbn [negb nmul].
  now rewrite Hback.
Qed.

Lemma conversion_round_trip_from_lira_witness :
  toTRY (fromTRY (Fin (Q2Qc (7 # 2))) USD
           (Some (singleRate USD (Fin (Q2Qc (413 # 10))))))
    USD (Some (singleRate USD (Fin (Q2Qc (413 # 10)))))
  = Fin (Q2Qc (7 # 2)).
Proof.
  apply (conversion_round_trip_from_lira USD (Q2Qc (413 # 10))
           (Q2Qc (7 # 2)) (Some (singleRate USD (Fin (Q2Qc (413 # 10))))));
    first [reflexivity | discriminate | apply Qc_nonzero; lia].
Defined.

(** ** applyGlobalDiscountTaxTRY *)

Lemma this_Q2Qc (q : Q) : (this (Q2Qc q) == q)%Q.
Proof. apply Qred_correct. Qed.

Lemma this_plus (a b : Qc) : (this (a + b)%Qc == this a + this b)%Q.
Proof. apply Qred_correct. Qed.

Lemma this_mult (a b : Qc) : (this (a * b)%Qc == this a * this b)%Q.
Proof. apply Qred_correct. Qed.

Lemma this_opp (a : Qc) : (this (- a)%Qc == - this a)%Q.
Proof. apply Qred_correct. Qed.

Lemma this_minus (a b : Qc) : (this (a - b)%Qc == this a - this b)%Q.
Proof. unfold Qcminus. rewrite this_plus, this_opp. reflexivity. Qed.

Lemma this_div100 (a : Qc) :
  (this (a / Q2Qc (inject_Z 100))%Qc == this a * (1 # 100))%Q.
Proof.
  unfold Qcdiv. rewrite this_mult. unfold Qcinv. rewrite this_Q2Qc.
  reflexivity.
Qed.

Lemma max_zero_nonneg (a : Qc) :
  (Q2Qc 0 <= a)%Qc -> Math_max (Fin a) zero = Fin a.
Proof.
  intros Ha. unfold Math_max, zero.
  destruct (Qcleb a (Q2Qc 0)) eqn:H; [| reflexivity].
  apply Qcleb_le in H. f_equal. now apply Qcle_antisym.
Qed.

Lemma max_zero_nonpos (a : Qc) :
  (a <= Q2Qc 0)%Qc -> Math_max (Fin a) zero = zero.
Proof.
  intros Ha. unfold Math_max, zero. apply Qcleb_le in Ha. now rewrite Ha.
Qed.

Lemma max_zero_notNegative (x : num) :
  notNegative x -> Math_max x zero = x.
Proof.
  intros H. destruct (notNegative_cases x H) as [[a [-> Ha]] | [-> | ->]];
    [now apply max_zero_nonneg | reflexivity | reflexivity].
Qed.

Lemma orZero_Fin (a : Qc) : orZero (Fin a) = Fin a.
Proof.
  unfold orZero, truthy. destruct (Qceqb a (Q2Qc 0)) eqn:H; [| reflexivity].
  symmetry. now apply zero_eq.
Qed.

Lemma div100_Fin (a : Qc) :
  ndiv (Fin a) (ofZ 100) = Fin (a / Q2Qc (inject_Z 100))%Qc.
Proof. reflexivity. Qed.

Lemma nadd_zero_l (x : num) : notNegative x -> nadd zero x = x.
Proof.
  intros H. destruct (notNegative_cases x H) as [[a [-> Ha]] | [-> | ->]];
    try reflexivity.
  unfold nadd, zero. f_equal. apply Qcplus_0_l.
Qed.

(** X18: the total after discount and tax is never negative, a flat
    discount or tax amount is never negative either, and with neither a
    discount nor a tax the result is the subtotal clamped at 0. *)
Theorem applyGlobalDiscountTax_never_negative (subTotal : num)
    (globalDiscount globalTax : option Adjustment) :
  notNegative (finalTRY (applyGlobalDiscountTaxTRY subTotal
                           globalDiscount globalTax))
  /\ (forall v, globalDiscount = Some {| adj_type := byAmount; adj_value := v |} ->
        notNegative (discountTRY (applyGlobalDiscountTaxTRY subTotal
                                    globalDiscount globalTax)))
  /\ (forall v, globalTax = Some {| adj_type := byAmount; adj_value := v |} ->
        notNegative (taxTRY (applyGlobalDiscountTaxTRY subTotal
                               globalDiscount globalTax)))
  /\ applyGlobalDiscountTaxTRY subTotal None None
     = {| discountTRY := zero; taxTRY := zero;
          finalTRY := Math_max subTotal zero |}.
Proof.
  split; [apply notNegative_max |].
  split; [intros v ->; apply notNegative_max |].
  split; [intros v ->; apply notNegative_max |].
  unfold applyGlobalDiscountTaxTRY. f_equal.
  destruct subTotal as [a| | |]; try reflexivity.
  assert (Ha : (a - Q2Qc 0)%Qc = a) by ring.
  cbn [nsub zero]. rewrite Ha.
  destruct (Qcleb a (Q2Qc 0)) eqn:Hle.
  - apply Qcleb_le in Hle. rewrite (max_zero_nonpos a Hle). reflexivity.
  - assert (Hpos : (Q2Qc 0 <= a)%Qc).
    { apply Qclt_le_weak, Qcnot_le_lt. intros H. apply Qcleb_le in H.
      congruence. }
    rewrite (max_zero_nonneg a Hpos). cbn [nadd zero].
    assert (Hb : (a + Q2Qc 0)%Qc = a) by ring.
    rewrite Hb. now apply max_zero_nonneg.
Qed.

(** X19: percentages compose: for a subtotal [s >= 0], a percentage
    discount [d] between 0 and 100 and a percentage tax [t >= 0], the
    discount is [s*d/100], the tax is taken on the discounted base
    [s - s*d/100], and the total is base plus tax, with no clamping. *)
Theorem applyGlobalDiscountTax_percentages (s d t : Qc) :
  (Q2Qc 0 <= s)%Qc -> (Q2Qc 0 <= d)%Qc -> (d <= Q2Qc (inject_Z 100))%Qc ->
  (Q2Qc 0 <= t)%Qc ->
  applyGlobalDiscountTaxTRY (Fin s)
    (Some {| adj_type := byPercentage; adj_value := Fin d |})
    (Some {| adj_type := byPercentage; adj_value := Fin t |})
  = {| discountTRY := Fin (s * d / Q2Qc (inject_Z 100))%Qc;
       taxTRY := Fin ((s - s * d / Q2Qc (inject_Z 100)) * t
                      / Q2Qc (inject_Z 100))%Qc;
       finalTRY := Fin ((s - s * d / Q2Qc (inject_Z 100))
                        + (s - s * d / Q2Qc (inject_Z 100)) * t
                          / Q2Qc (inject_Z 100))%Qc |}.
Proof.
  intros Hs Hd Hd' Ht.
  set (h := Q2Qc (inject_Z 100)).
  assert (Hbase : (Q2Qc 0 <= s - s * d / h)%Qc).
  { unfold Qcle in *. subst h.
    rewrite this_minus, this_div100, this_mult.
    change (this (Q2Qc 0)) with 0%Q in *.
    change (this (Q2Qc (inject_Z 100))) with (100 # 1)%Q in Hd'. nra. }
  assert (Hfinal : (Q2Qc 0 <= (s - s * d / h) + (s - s * d / h) * t / h)%Qc).
  { unfold Qcle in *. subst h.
    rewrite this_plus, this_div100, this_mult.
    change (this (Q2Qc 0)) with 0%Q in *. nra. }
  unfold applyGlobalDiscountTaxTRY. cbn [adj_type adj_value].
  rewrite !orZero_Fin. cbn [nmul]. rewrite div100_Fin. fold h.
  cbn [nsub]. rewrite (max_zero_nonneg _ Hbase).
  cbn [nmul]. rewrite div100_Fin. fold h. cbn [nadd].
  now rewrite (max_zero_nonneg _ Hfinal).
Qed.

Lemma applyGlobalDiscountTax_percentages_witness :
  applyGlobalDiscountTaxTRY (ofZ 200)
    (Some {| adj_type := byPercentage; adj_value := ofZ 10 |})
    (Some {| adj_type := byPercentage; adj_value := ofZ 20 |})
  = {| discountTRY :=
         Fin (Q2Qc (inject_Z 200) * Q2Qc (inject_Z 10)
              / Q2Qc (inject_Z 100))%Qc;
       taxTRY :=
         Fin ((Q2Qc (inject_Z 200)
               - Q2Qc (inject_Z 200) * Q2Qc (inject_Z 10)
                 / Q2Qc (inject_Z 100))
              * Q2Qc (inject_Z 20) / Q2Qc (inject_Z 100))%Qc;
       finalTRY :=
         Fin ((Q2Qc (inject_Z 200)
               - Q2Qc (inject_Z 200) * Q2Qc (inject_Z 10)
                 / Q2Qc (inject_Z 100))
              + (Q2Qc (inject_Z 200)
                 - Q2Qc (inject_Z 200) * Q2Qc (inject_Z 10)
                   / Q2Qc (inject_Z 100))
                * Q2Qc (inject_Z 20) / Q2Qc (inject_Z 100))%Qc |}.
Proof.
  apply (applyGlobalDiscountTax_percentages (Q2Qc (inject_Z 200))
           (Q2Qc (inject_Z 10)) (Q2Qc (inject_Z 20)));
    unfold Qcle; simpl; discriminate.
Defined.

Example discount_then_tax_sample :
  finalTRY (applyGlobalDiscountTaxTRY (ofZ 200)
              (Some {| adj_type := byPercentage; adj_value := ofZ 10 |})
              (Some {| adj_type := byPercentage; adj_value := ofZ 20 |}))
  = ofZ 216.
Proof. apply (f_equal Fin). apply Qc_is_canon. reflexivity. Qed.

Lemma full_discount_base (s v : num) :
  nleb s v = true -> nleb zero v = true -> s <> PInf ->
  Math_max (nsub s (Math_max (orZero v) zero)) zero = zero.
Proof.
  intros Hsv Hv Hs.
  destruct v as [b| | |]; try discriminate Hv.
  - assert (Hb : (Q2Qc 0 <= b)%Qc) by now apply Qcleb_le.
    rewrite orZero_Fin, (max_zero_nonneg b Hb).
    destruct s as [a| | |]; try discriminate Hsv; [| reflexivity].
    cbn [nsub]. apply max_zero_nonpos.
    apply Qcleb_le in Hsv. unfold Qcle in *.
    rewrite this_minus. change (this (Q2Qc 0)) with 0%Q. lra.
  - destruct s as [a| | |]; try discriminate Hsv;
      [reflexivity | now elim Hs | reflexivity].
Qed.

(** X20: a flat discount that is not negative and at least the
    subtotal leaves nothing to tax, for every subtotal but plus
    infinity (finite or minus infinity) and every such discount (finite
    or plus infinity): the base is 0, so the total is the tax alone,
    which for a percentage tax with a finite rate is 0. *)
Theorem applyGlobalDiscountTax_full_discount (s v : num)
    (globalTax : option Adjustment) :
  nleb s v = true -> nleb zero v = true -> s <> PInf ->
  finalTRY (applyGlobalDiscountTaxTRY s
              (Some {| adj_type := byAmount; adj_value := v |}) globalTax)
  = taxTRY (applyGlobalDiscountTaxTRY s
              (Some {| adj_type := byAmount; adj_value := v |}) globalTax)
  /\ (forall t,
        globalTax = Some {| adj_type := byPercentage; adj_value := Fin t |} ->
        finalTRY (applyGlobalDiscountTaxTRY s
                    (Some {| adj_type := byAmount; adj_value := v |})
                    globalTax)
        = zero).
Proof.
  intros Hsv Hv Hs.
  pose proof (full_discount_base s v Hsv Hv Hs) as Hbase.
  unfold applyGlobalDiscountTaxTRY. cbn [adj_type adj_value finalTRY taxTRY].
  rewrite Hbase. split.
  - destruct globalTax as [[[] tv]|]; cbn [adj_type adj_value].
    + assert (HT : notNegative (ndiv (nmul zero (orZero tv)) (ofZ 100))).
      { destruct (orZero tv) as [b| | |]; reflexivity. }
      rewrite nadd_zero_l by exact HT. now apply max_zero_notNegative.
    + rewrite nadd_zero_l by apply notNegative_max.
      apply max_zero_notNegative, notNegative_max.
    + reflexivity.
  - intros t ->. cbn [adj_type adj_value]. rewrite orZero_Fin.
    cbn [zero nmul]. rewrite Qcmult_0_l. reflexivity.
Qed.

Lemma applyGlobalDiscountTax_full_discount_witness :
  finalTRY (applyGlobalDiscountTaxTRY (ofZ 80)
              (Some {| adj_type := byAmount; adj_value := ofZ 100 |})
              (Some {| adj_type := byAmount; adj_value := ofZ 5 |}))
  = taxTRY (applyGlobalDiscountTaxTRY (ofZ 80)
              (Some {| adj_type := byAmount; adj_value := ofZ 100 |})
              (Some {| adj_type := byAmount; adj_value := ofZ 5 |})).
Proof.
  apply (applyGlobalDiscountTax_full_discount (ofZ 80) (ofZ 100)
           (Some {| adj_type := byAmount; adj_value := ofZ 5 |}));
    first [reflexivity | discriminate].
Defined.

(** The excluded case: an infinite subtotal less an infinite discount
    is NaN, and so is the total. *)
Example full_discount_infinite_subtotal :
  finalTRY (applyGlobalDiscountTaxTRY PInf
              (Some {| adj_type := byAmount; adj_value := PInf |})
              (Some {| adj_type := byAmount; adj_value := ofZ 5 |}))
  = NaN
  /\ taxTRY (applyGlobalDiscountTaxTRY PInf
               (Some {| adj_type := byAmount; adj_value := PInf |})
               (Some {| adj_type := byAmount; adj_value := ofZ 5 |}))
     = ofZ 5.
Proof. split; reflexivity. Qed.

(** ** formatReceiptMoney, hasMeaningfulAmount, formatPercentage *)

Lemma Math_abs_notNegative (x : num) : notNegative (Math_abs x).
Proof.
  destruct x as [q| | |]; try reflexivity.
  apply notNegative_Fin. destruct (Qcltb q (Q2Qc 0)) eqn:Hq.
  - apply Qcltb_lt, Qclt_le_weak, Qcopp_le_compat in Hq.
    replace (Q2Qc 0) with (- Q2Qc 0)%Qc by (apply Qc_is_canon; reflexivity).
    exact Hq.
  - now apply Qcltb_ge.
Qed.

Lemma Math_abs_of_notNegative (x : num) : notNegative x -> Math_abs x = x.
Proof.
  destruct x as [q| | |]; try reflexivity; [| discriminate].
  unfold notNegative, nltb, zero, Math_abs. now intros ->.
Qed.

Lemma Math_abs_idempotent (x : num) : Math_abs (Math_abs x) = Math_abs x.
Proof. apply Math_abs_of_notNegative, Math_abs_notNegative. Qed.

(** X21: the sign is printed apart from the number: a negative amount
    prints as a minus sign followed by the print of its magnitude. *)
Theorem formatReceiptMoney_negative (E : Engine) (x : num)
    (currency : jsstring) :
  nltb x zero = true ->
  formatReceiptMoney x currency
  = 45%N :: formatReceiptMoney (Math_abs x) currency.
Proof.
  intros Hneg. unfold formatReceiptMoney. rewrite Hneg.
  pose proof (Math_abs_notNegative x) as Habs. unfold notNegative in Habs.
  rewrite Habs. unfold formattedAmount. now rewrite Math_abs_idempotent.
Qed.

Lemma formatReceiptMoney_negative_witness :
  nltb (dec (-7) 2) zero = true
  /\ @formatReceiptMoney referenceEngine (dec (-7) 2) (utf8 "usd")
     = 45%N :: @formatReceiptMoney referenceEngine (Math_abs (dec (-7) 2))
                 (utf8 "usd").
Proof.
  split; [reflexivity |].
  apply (formatReceiptMoney_negative referenceEngine (dec (-7) 2) (utf8 "usd")).
  reflexivity.
Defined.

Example formatReceiptMoney_samples :
  @formatReceiptMoney referenceEngine (dec (-7) 2) (utf8 "usd")
  = utf8 "-3.50 USD"
  /\ @formatReceiptMoney referenceEngine (ofZ 12) (utf8 "try") = utf8 "12.00 TL"
  /\ @formatReceiptMoney referenceEngine NaN (utf8 "TRY") = utf8 "NaN TL".
Proof. repeat split. Qed.

(** *** The threshold and the two decimals *)

Lemma this_hundred : this (Q2Qc (inject_Z (pow10 2))) = (100 # 1)%Q.
Proof. reflexivity. Qed.

Lemma roundHalfUp_nonneg (q : Qc) : (Q2Qc 0 <= q)%Qc -> (0 <= roundHalfUp q)%Z.
Proof.
  intros Hq. unfold roundHalfUp, Qcle in *.
  change (this (Q2Qc 0)) with 0%Q in Hq.
  pose proof (Qlt_floor (this q + (1 # 2))) as Hlt.
  assert (H : (0 < inject_Z (Qfloor (this q + (1 # 2)) + 1))%Q) by lra.
  change 0%Q with (inject_Z 0) in H. rewrite <- Zlt_Qlt in H. lia.
Qed.

(** Rounding to two decimals gives zero exactly below half a cent. *)
Lemma round_cents_zero (a : Qc) :
  (Q2Qc 0 <= a)%Qc ->
  (roundHalfUp (a * Q2Qc (inject_Z (pow10 2)))%Qc = 0%Z
   <-> Qcleb (Q2Qc (5 # 1000)) a = false).
Proof.
  intros Ha. unfold Qcle in Ha. change (this (Q2Qc 0)) with 0%Q in Ha.
  unfold roundHalfUp.
  set (v := (this (a * Q2Qc (inject_Z (pow10 2)))%Qc + (1 # 2))%Q).
  assert (Hv : (v == this a * (100 # 1) + (1 # 2))%Q).
  { unfold v. rewrite this_mult, this_hundred. reflexivity. }
  pose proof (Qfloor_le v) as Hfl. pose proof (Qlt_floor v) as Hlt.
  unfold Qcleb. change (this (Q2Qc (5 # 1000))) with (1 # 200)%Q.
  split.
  - intros H0. rewrite H0 in Hlt. change (inject_Z (0 + 1)) with 1%Q in Hlt.
    destruct (Qle_bool (1 # 200) a) eqn:Hle; [| reflexivity].
    apply Qle_bool_iff in Hle. lra.
  - intros Hle.
    assert (Hsmall : (this a < 1 # 200)%Q).
    { apply Qnot_le_lt. intros H. apply Qle_bool_iff in H. congruence. }
    assert (H1 : (inject_Z (Qfloor v) < inject_Z 1)%Q).
    { change (inject_Z 1) with 1%Q. lra. }
    assert (H2 : (inject_Z (-1) < inject_Z (Qfloor v))%Q).
    { rewrite inject_Z_plus in Hlt.
      change (inject_Z 1) with 1%Q in Hlt.
      change (inject_Z (-1)) with (-1 # 1)%Q. lra. }
    rewrite <- Zlt_Qlt in H1, H2. lia.
Qed.

Lemma digitsOfUint_digits (u : Decimal.uint) :
  Forall (fun c => c <> 46%N) (digitsOfUint u).
Proof. induction u; simpl; constructor; (discriminate || assumption). Qed.

Lemma digitsOfUint_zeros (u : Decimal.uint) :
  Forall (eq 48%N) (digitsOfUint u) -> N.of_uint u = 0%N.
Proof.
  induction u; simpl; intros H; try reflexivity;
    inversion H as [|? ? Hc Hr]; subst; try discriminate Hc.
  now apply IHu.
Qed.

Lemma decimalDigits_digits (n : Z) :
  Forall (fun c => c <> 46%N) (decimalDigits n).
Proof.
  unfold decimalDigits.
  pose proof (digitsOfUint_digits (N.to_uint (Z.to_N n))) as H.
  destruct (digitsOfUint (N.to_uint (Z.to_N n))); [| exact H].
  constructor; [discriminate | constructor].
Qed.

Lemma decimalDigits_zeros (n : Z) :
  (0 <= n)%Z -> Forall (eq 48%N) (decimalDigits n) -> n = 0%Z.
Proof.
  intros Hn H. unfold decimalDigits in H.
  assert (Hz : N.of_uint (N.to_uint (Z.to_N n)) = 0%N).
  { apply digitsOfUint_zeros.
    destruct (digitsOfUint (N.to_uint (Z.to_N n))); [constructor | exact H]. }
  rewrite DecimalN.Unsigned.of_to in Hz. lia.
Qed.

Lemma split_at_point (a b : jsstring) :
  Forall (fun c => c <> 46%N) a ->
  a ++ 46%N :: b = [48; 46; 48; 48]%N ->
  a = [48%N] /\ b = [48; 48]%N.
Proof.
  intros Ha H. destruct a as [|x a]; [discriminate H |].
  injection H as -> H.
  destruct a as [|y a].
  - injection H as <-. now split.
  - injection H as -> _. inversion Ha as [|? ? _ Hr]; subst.
    inversion Hr as [|? ? Hy _]; subst. now elim Hy.
Qed.

Lemma toFixedDigits_zero (a : Qc) :
  (Q2Qc 0 <= a)%Qc ->
  (toFixedDigits 2 a = utf8 "0.00"
   <-> roundHalfUp (a * Q2Qc (inject_Z (pow10 2)))%Qc = 0%Z).
Proof.
  intros Ha.
  assert (Hn : (0 <= roundHalfUp (a * Q2Qc (inject_Z (pow10 2)))%Qc)%Z).
  { apply roundHalfUp_nonneg. unfold Qcle in *.
    rewrite this_mult, this_hundred.
    change (this (Q2Qc 0)) with 0%Q in *. nra. }
  unfold toFixedDigits.
  set (n := roundHalfUp (a * Q2Qc (inject_Z (pow10 2)))%Qc) in *.
  split.
  - intros H. apply (decimalDigits_zeros n Hn).
    pose proof (decimalDigits_digits n) as Hd.
    set (m := decimalDigits n) in *.
    set (m' := if (Datatypes.length m <=? 2)%nat
               then repeat 48%N (2 + 1 - Datatypes.length m) ++ m else m) in *.
    assert (Hd' : Forall (fun c => c <> 46%N) m').
    { unfold m'. destruct (Datatypes.length m <=? 2)%nat; [| exact Hd].
      apply Forall_app. split; [| exact Hd].
      apply Forall_forall. intros c Hc. apply repeat_spec in Hc. now subst. }
    cbn [Nat.eqb] in H.
    set (k := (Datatypes.length m' - 2)%nat) in *.
    assert (Hsplit : firstn k m' = [48%N] /\ skipn k m' = [48; 48]%N).
    { apply split_at_point; [| exact H].
      rewrite <- (firstn_skipn k m') in Hd'.
      now apply Forall_app in Hd'. }
    destruct Hsplit as [H1 H2].
    assert (Hm' : m' = [48; 48; 48]%N)
      by (rewrite <- (firstn_skipn k m'), H1, H2; reflexivity).
    assert (Hz : Forall (eq 48%N) m').
    { rewrite Hm'. repeat constructor. }
    unfold m' in Hz. destruct (Datatypes.length m <=? 2)%nat; [| exact Hz].
    now apply Forall_app in Hz.
  - intros ->. reflexivity.
Qed.

(** X22: the threshold of [hasMeaningfulAmount] is the rounding step of
    the two-decimal print: for an amount of magnitude below 1e21, the
    amount is not meaningful exactly when its magnitude prints as 0.00. *)
Theorem meaningful_iff_prints_nonzero (E : Engine) (x : num) :
  nltb (Math_abs x) (Fin tenTo21) = true ->
  (hasMeaningfulAmount x = false
   <-> toFixed 2 (Math_abs x) = utf8 "0.00").
Proof.
  intros Hsmall.
  pose proof (Math_abs_notNegative x) as Hpos.
  destruct (Math_abs x) as [a| | |] eqn:Habs;
    try discriminate Hsmall; try discriminate Hpos.
  apply notNegative_Fin in Hpos.
  assert (Hneg : Qcltb a (Q2Qc 0) = false) by now apply Qcltb_ge.
  assert (Hbig : Qcleb tenTo21 a = false).
  { unfold nltb, Qcltb in Hsmall. now apply negb_true_iff in Hsmall. }
  unfold hasMeaningfulAmount. rewrite Habs.
  unfold toFixed. rewrite Hneg, Hbig. cbn [app].
  rewrite (toFixedDigits_zero a Hpos), (round_cents_zero a Hpos).
  split; intros H; exact H.
Qed.

Lemma meaningful_iff_prints_nonzero_witness :
  nltb (Math_abs (dec (-4) 1000)) (Fin tenTo21) = true
  /\ (hasMeaningfulAmount (dec (-4) 1000) = false
      <-> @toFixed referenceEngine 2 (Math_abs (dec (-4) 1000))
          = utf8 "0.00").
Proof.
  split; [reflexivity |].
  apply (meaningful_iff_prints_nonzero referenceEngine (dec (-4) 1000)).
  reflexivity.
Defined.

Lemma toFixedValue_finite (f : nat) (a : Qc) :
  isFinite (toFixedValue f (Fin a)) = true.
Proof.
  unfold toFixedValue. now destruct (Qcleb tenTo21 _).
Qed.

(** X23: [formatPercentage] returns null exactly for an input that is
    not finite (its second test never fires), and it ignores the sign
    of its input. *)
Theorem formatPercentage_total (E : Engine) (x : num) :
  (formatPercentage x = None <-> isFinite x = false)
  /\ formatPercentage (Math_abs x) = formatPercentage x.
Proof.
  split.
  - destruct x as [q| | |]; try (split; reflexivity).
    split; [| intros H; discriminate H].
    unfold formatPercentage. cbn [isFinite negb Math_abs].
    rewrite toFixedValue_finite. cbn [negb]. intros H. discriminate H.
  - unfold formatPercentage. rewrite Math_abs_idempotent.
    now destruct x.
Qed.

(** ** buildSaleReceiptLines *)

Lemma nsub_self (x : num) : nsub x x = zero \/ nsub x x = NaN.
Proof.
  destruct x as [a| | |]; auto.
  left. unfold nsub, zero. f_equal. unfold Qcminus. apply Qcplus_opp_r.
Qed.

Lemma max_self_difference (x : num) :
  Math_max (nsub x x) zero = zero \/ Math_max (nsub x x) zero = NaN.
Proof. destruct (nsub_self x) as [-> | ->]; [now left | now right]. Qed.

Lemma degenerate_not_meaningful (E : Engine) (o : BuildReceiptLinesOptions)
    (y : num) (cur : option jsstring) :
  y = zero \/ y = NaN ->
  convertSummaryAmount o y cur = zero.
Proof.
  intros H. apply convertAmount_degenerate.
  destruct H as [-> | ->]; [now right | now left].
Qed.

(** X24: a sale handed to [buildSaleReceiptLines] with neither a paid
    amount, a remaining amount nor a paid currency is treated as settled
    in full: the paid amount resolves to the displayed total, no debt is
    outstanding, so the paid row shows that amount, and there is no
    change row. *)
Theorem sale_defaults_to_settled (E : Engine) (s : BuildSaleReceiptOptions) :
  sale_paid s = None -> sale_remaining s = None ->
  sale_paidCurrency s = None ->
  resolvedPaid (saleOptions s) = totalDisplay (saleOptions s)
  /\ hasOutstandingDebt (saleOptions s) = false
  /\ displayPaidAmount (saleOptions s) = totalDisplay (saleOptions s)
  /\ emitted (changeStep (saleOptions s)) = [].
Proof.
  intros Hp Hr Hc.
  assert (Hpaid : resolvedPaid (saleOptions s) = totalDisplay (saleOptions s)).
  { unfold resolvedPaid, totalDisplay, paidRaw. cbn [saleOptions paid total
      paidCurrency]. now rewrite Hp, Hc. }
  assert (Hrem : resolvedRemaining (saleOptions s) = zero).
  { unfold resolvedRemaining, remainingRaw. cbn [saleOptions remaining].
    rewrite Hp, Hr. cbn [orDefault].
    apply degenerate_not_meaningful.
    destruct (max_self_difference (sale_total s)) as [-> | ->];
      [now left | now right]. }
  assert (Hdebt : hasOutstandingDebt (saleOptions s) = false)
    by (unfold hasOutstandingDebt; now rewrite Hrem).
  split; [exact Hpaid |]. split; [exact Hdebt |].
  split; [unfold displayPaidAmount; now rewrite Hdebt |].
  unfold changeStep. rewrite emitted_when.
  assert (Hchg : hasMeaningfulAmount (resolvedChange (saleOptions s)) = false).
  { unfold resolvedChange. cbn [saleOptions changeAmount].
    fold (saleOptions s). rewrite Hpaid.
    now destruct (max_self_difference (totalDisplay (saleOptions s)))
      as [-> | ->]. }
  now rewrite Hchg.
Qed.

Lemma sale_defaults_to_settled_witness :
  @resolvedPaid referenceEngine (saleOptions sampleSale)
  = @totalDisplay referenceEngine (saleOptions sampleSale)
  /\ @hasOutstandingDebt referenceEngine (saleOptions sampleSale) = false
  /\ @displayPaidAmount referenceEngine (saleOptions sampleSale)
     = @totalDisplay referenceEngine (saleOptions sampleSale)
  /\ emitted (@changeStep referenceEngine (saleOptions sampleSale)) = [].
Proof.
  apply (sale_defaults_to_settled referenceEngine sampleSale);
    reflexivity.
Defined.

Example sale_receipt_paid_row :
  emitted (@paidStep referenceEngine (saleOptions sampleSale))
  = [ColumnsLine (utf8 "Ödenen") (utf8 "120.00 TL") 1 32 None].
Proof. reflexivity. Qed.

(** ** normalizeCurrency *)

Lemma streqb_eq (a b : jsstring) : streqb a b = true <-> a = b.
Proof.
  unfold streqb. destruct (list_eq_dec N.eq_dec a b); split;
    (congruence || discriminate || trivial).
Qed.

Lemma parseCode_codeName (c : CurrencyCode) : parseCode (codeName c) = Some c.
Proof. now destruct c. Qed.

Lemma parseCode_some (s : jsstring) (c : CurrencyCode) :
  parseCode s = Some c -> s = codeName c.
Proof.
  unfold parseCode.
  repeat match goal with
         | |- context [streqb s ?l] =>
             let H := fresh in
             destruct (streqb s l) eqn:H;
             [apply streqb_eq in H; intros [= <-]; exact H |]
         end.
  discriminate.
Qed.

(** X25: a currency string normalizes to the code its upper-case form
    spells; a string whose upper-case form is none of the four codes,
    and a missing string, normalize to TRY. *)
Theorem normalizeCurrency_cases (E : Engine) :
  (forall v c, toUpperCase v = codeName c -> normalizeCurrency (Some v) = c)
  /\ (forall v, (forall c, toUpperCase v <> codeName c) ->
                normalizeCurrency (Some v) = TRY)
  /\ normalizeCurrency None = TRY.
Proof.
  split; [| split].
  - intros v c H. unfold normalizeCurrency.
    now rewrite H, parseCode_codeName.
  - intros v H. unfold normalizeCurrency.
    destruct (parseCode (toUpperCase v)) as [c|] eqn:Hp; [| reflexivity].
    apply parseCode_some in Hp. now elim (H c).
  - reflexivity.
Qed.

Example normalizeCurrency_samples :
  @normalizeCurrency referenceEngine (Some (utf8 "eur")) = EUR
  /\ @normalizeCurrency referenceEngine (Some (utf8 "chf")) = TRY
  /\ @normalizeCurrency referenceEngine (Some []) = TRY.
Proof. repeat split. Qed.

(** ** Sample runs *)

Example wrap_ex1 :
  wrapTextToWidth (utf8 "  hello  brave new   world ") 11
  = [utf8 "hello brave"; utf8 "new world"].
Proof. reflexivity. Qed.

Example wrap_ex2 :
  wrapTextToWidth (utf8 "a  b") 10 = [utf8 "a  b"].
Proof. reflexivity. Qed.

Example wrap_ex3 :
  wrapTextToWidth (utf8 "ab incomprehensible cd") 5
  = [utf8 "ab"; utf8 "incomprehensible"; utf8 "cd"].
Proof. reflexivity. Qed.

Example utf8_ex : utf8 "Ödenen" = [214; 100; 101; 110; 101; 110]%N.
Proof. reflexivity. Qed.

Example toFixed_rounds_half_up :
  @toFixed referenceEngine 2 (dec 12345 1000) = utf8 "12.35"
  /\ @toFixed referenceEngine 2 (dec 5 1000) = utf8 "0.01"
  /\ @toFixed referenceEngine 2 (dec (-7) 2) = utf8 "-3.50"
  /\ @toFixed referenceEngine 0 (ofZ 18) = utf8 "18".
Proof. repeat split. Qed.

Example formatPercentage_samples :
  @formatPercentage referenceEngine (ofZ 10) = Some (utf8 "10")
  /\ @formatPercentage referenceEngine (dec 125 10) = Some (utf8 "12.5")
  /\ @formatPercentage referenceEngine NaN = None.
Proof. repeat split. Qed.

(** The sale of one coffee, paid in full: item block, subtotal and paid
    rows, no discount, tax, change or debt row, thirty blank lines. *)
Example receipt_of_one_coffee :
  @buildStandardReceiptLines referenceEngine (changeScenario None)
  = [ TextLine true (spaces 11 ++ utf8 "Satış Fişi" ++ spaces 11)
        (Some medium) None;
      SeparatorLine None 32;
      TextLine true (spaces 7 ++ utf8 "Sipariş Bilgileri" ++ spaces 8)
        (Some medium) None;
      SeparatorLine (Some (utf8 ".")) 32;
      ColumnsLine (utf8 "Satıcı") (utf8 "Satıcı") 1 32 None;
      SeparatorLine None 32;
      TextLine false (utf8 "Kahve") (Some medium) (Some alignLeft);
      ColumnsLine (utf8 "2 x 25.00 TL") (utf8 "50.00 TL") 1 32 None;
      SeparatorLine None 32;
      TextLine true (spaces 10 ++ utf8 "Ödeme Özeti" ++ spaces 11)
        (Some medium) None;
      SeparatorLine None 32;
      ColumnsLine (utf8 "Ara Toplam") (utf8 "50.00 TL") 1 32 (Some medium);
      ColumnsLine (utf8 "Ödenen") (utf8 "50.00 TL") 1 32 None;
      SeparatorLine (Some (utf8 ".")) 32;
      TextLine true (spaces 10 ++ utf8 "Genel Toplam" ++ spaces 10)
        (Some medium) None;
      TextLine false (utf8 "50.00 TL") (Some large) None;
      EmptyLine 1;
      TextLine true (spaces 8 ++ utf8 "Teşekkür ederiz!" ++ spaces 8)
        None None;
      EmptyLine 30 ].
Proof. reflexivity. Qed.

(** The discount label carries a percentage only when the subtotal is
    meaningful. *)
Example discount_label_samples :
  emitted (@discountStep referenceEngine
             (sampleOptions [kahve] (ofZ 100) (ofZ 10) zero (ofZ 90)
                (Some (ofZ 90)) (Some zero) None))
  = [ColumnsLine (utf8 "İndirim (%10)") (utf8 "-10.00 TL") 1 32 None]
  /\ emitted (@discountStep referenceEngine
                (sampleOptions [kahve] zero (ofZ 10) zero (ofZ 90)
                   (Some (ofZ 90)) (Some zero) None))
     = [ColumnsLine (utf8 "İndirim") (utf8 "-10.00 TL") 1 32 None].
Proof. split; reflexivity. Qed.

(** With debt outstanding the paid row shows the total. *)
Example paid_row_shows_total :
  emitted (@paidStep referenceEngine (debtScenario None))
  = [ColumnsLine (utf8 "Ödenen") (utf8 "100.00 TL") 1 32 None].
Proof. reflexivity. Qed.

(** Conversion of an item priced in dollars for a receipt in lira. *)
Example convert_usd_item :
  @convertAmount referenceEngine
    (withRates (Some (singleRate USD (dec 413 10))) (changeScenario None))
    (ofZ 2) (Some (utf8 "usd"))
  = dec 826 10.
Proof. apply (f_equal Fin). apply Qc_is_canon. reflexivity. Qed.
